(** * Place-name extraction: a shallow embedding of
      [src/extraction/placename_extractor.py]

    Python strings are sequences of Unicode code points; they are modelled
    as lists of code points ([Z]).  The methods of [PlaceNameExtractor] keep
    their names.  The aggregation dictionary of [extract_from_directory] is
    an insertion-ordered association list, and the one operation of the
    source that can raise ([KeyError] on a missing bucket) is threaded
    through [option]. *)

From Equations Require Import Equations.
From Stdlib Require Import ZArith List Bool Lia Arith.
From Stdlib Require Import Permutation Sorted.
Import ListNotations.

Local Open Scope Z_scope.

(** ** Python strings *)

Definition char := Z.
Definition str := list char.

Definition len (s : str) : Z := Z.of_nat (length s).

Fixpoint str_eqb (a b : str) : bool :=
  match a, b with
  | [], [] => true
  | x :: a', y :: b' => (x =? y) && str_eqb a' b'
  | _, _ => false
  end.

(** [s.startswith(p)] *)
Fixpoint startswith (s p : str) : bool :=
  match p, s with
  | [], _ => true
  | _ :: _, [] => false
  | y :: p', x :: s' => (x =? y) && startswith s' p'
  end.

(** [s.endswith(p)] *)
Definition endswith (s p : str) : bool := startswith (rev s) (rev p).

(** [any(s.startswith(w) for w in ws)] *)
Definition any_startswith (s : str) (ws : list str) : bool :=
  existsb (startswith s) ws.

(** [any(s.endswith(w) for w in ws)] *)
Definition any_endswith (s : str) (ws : list str) : bool :=
  existsb (endswith s) ws.

Definition char_in (c : char) (chars : str) : bool := existsb (Z.eqb c) chars.

Fixpoint dropwhile (p : char -> bool) (s : str) : str :=
  match s with
  | [] => []
  | c :: s' => if p c then dropwhile p s' else s
  end.

(** [s.lstrip(chars)] *)
Definition lstrip_chars (chars : str) (s : str) : str :=
  dropwhile (fun c => char_in c chars) s.

(** Python slices [s[i:]] and [s[:i]]: a negative index counts from the end,
    and both ends are clamped to the string. *)
Definition slice_index (s : str) (i : Z) : nat :=
  Z.to_nat (if i <? 0 then Z.max 0 (i + len s) else Z.min i (len s)).

Definition slice_from (s : str) (i : Z) : str := skipn (slice_index s i) s.
Definition slice_to (s : str) (i : Z) : str := firstn (slice_index s i) s.

(** [s.find(sub)]: the lowest index at which [sub] occurs, [-1] if none. *)
Fixpoint find (s sub : str) : Z :=
  if startswith s sub then 0
  else match s with
       | [] => -1
       | _ :: s' => let r := find s' sub in if r <? 0 then -1 else r + 1
       end.

(** [sub in s] *)
Fixpoint str_in (sub s : str) : bool :=
  startswith s sub ||
  match s with
  | [] => false
  | _ :: s' => str_in sub s'
  end.

(** [sep.join(parts)] *)
Fixpoint join (sep : str) (parts : list str) : str :=
  match parts with
  | [] => []
  | [p] => p
  | p :: rest => p ++ sep ++ join sep rest
  end.

(** The keys of [dict.fromkeys(l)], in the order of their first insertion. *)
Fixpoint fromkeys_aux (seen : list str) (l : list str) : list str :=
  match l with
  | [] => []
  | x :: l' =>
      if existsb (str_eqb x) seen then fromkeys_aux seen l'
      else x :: fromkeys_aux (x :: seen) l'
  end.

Definition dict_fromkeys (l : list str) : list str := fromkeys_aux [] l.

(** ** Character classes

    [str.strip()], [str.isspace()] and the [\s] of [re] on [str] patterns
    share one table of white space; [\d] is the Unicode category Nd. *)

Definition is_space (c : char) : bool :=
  ((9 <=? c) && (c <=? 13)) || ((28 <=? c) && (c <=? 32))
  || (c =? 133) || (c =? 160) || (c =? 5760)
  || ((8192 <=? c) && (c <=? 8202))
  || (c =? 8232) || (c =? 8233) || (c =? 8239) || (c =? 8287) || (c =? 12288).

(** First code point of every run of ten decimal digits of category Nd
    (Unicode 14.0, the table of CPython 3.11); the mathematical digits
    U+1D7CE..U+1D7FF are five such runs. *)
Definition decimal_zeros : list Z :=
  [48; 1632; 1776; 1984; 2406; 2534; 2662; 2790; 2918; 3046; 3174; 3302;
   3430; 3558; 3664; 3792; 3872; 4160; 4240; 6112; 6160; 6470; 6608; 6784;
   6800; 6992; 7088; 7232; 7248; 42528; 43216; 43264; 43472; 43504; 43600;
   44016; 65296; 66720; 68912; 69734; 69872; 69942; 70096; 70384; 70736;
   70864; 71248; 71360; 71472; 71904; 72016; 72784; 73040; 73120; 92768;
   92864; 93008; 120782; 120792; 120802; 120812; 120822; 123200; 123632;
   125264; 130032].

Definition is_decimal (c : char) : bool :=
  existsb (fun z => (z <=? c) && (c <? z + 10)) decimal_zeros.

(** The class [[一-龥]] of the two patterns: U+4E00..U+9FA5. *)
Definition is_ideograph (c : char) : bool := (19968 <=? c) && (c <=? 40869).

(** [s.strip()] *)
Definition lstrip (s : str) : str := dropwhile is_space s.
Definition rstrip (s : str) : str := rev (dropwhile is_space (rev s)).
Definition strip (s : str) : str := rstrip (lstrip s).

(** ** The class constants of [PlaceNameExtractor] *)

Definition DYNASTIES : list str :=
  [[28450]; [39759]; [26185]; [38539]; [21776]; [23435]; [20803]; [26126];
   [28165]; [31206]; [40778]; [26753]; [21608]; [24460; 28450];
   [20803; 39759]; [21271; 40778]].

Definition ADMIN_LEVELS : list str :=
  [[37089]; [24030]; [24220]; [36947]; [36335]].

Definition PREFIX_VERBS : list str :=
  [[32622]; [25913]; [20998]; [26512]; [31227]; [38584]; [23660]; [24182];
   [26044]; [22312]; [26412]; [33290]; [20170]; [23563]; [27492]].

Definition STOP_START_WORDS : list str :=
  [[22312]; [21450]; [19982]; [20043]; [20854]; [27492]; [26087]; [20174];
   [33267]; [30028]; [26377]; [35859]].

Definition PLACE_SUFFIXES : list str :=
  [[32291]; [24030]; [37089]; [24220]; [36947]; [23665]; [27700]; [27827];
   [24029]; [21407]; [35895]; [22478]; [38364]; [27941]; [22369]; [38517];
   [23470]; [28330]; [23721]; [28525]].

(** The literal list of line 98: 南 北 西 东 治 界. *)
Definition DIRECTION_WORDS : list str :=
  [[21335]; [21271]; [35199]; [19996]; [27835]; [30028]].

(** The argument of [lstrip] in [clean_line_start] (space ； ， 。) and in
    [extract_from_directory] (， 。 ； space). *)
Definition CLEAN_SEPARATORS : str := [32; 65307; 65292; 12290].
Definition CONTENT_SEPARATORS : str := [65292; 12290; 65307; 32].

(** ** [clean_line_start] *)

(** [re.sub(r"^\d+\s*", "", line)]: the pattern is anchored, so at most the
    leading run of digits with the white space after it is removed. *)
Definition re_sub_leading_number (line : str) : str :=
  match line with
  | c :: _ => if is_decimal c
              then dropwhile is_space (dropwhile is_decimal line)
              else line
  | [] => []
  end.

(** [re.match(rf"^[一-龥]{{1,2}}{admin}", line)], giving [match.group(0)].
    The quantifier is greedy: two ideographs are tried before one. *)
Definition re_match_admin (admin line : str) : option str :=
  match line with
  | c1 :: rest1 =>
      if is_ideograph c1 then
        let one := if startswith rest1 admin then Some (c1 :: admin) else None in
        match rest1 with
        | c2 :: rest2 =>
            if is_ideograph c2 && startswith rest2 admin
            then Some (c1 :: c2 :: admin)
            else one
        | [] => one
        end
      else None
  | [] => None
  end.

(** One body of the three [for] loops; [line] is reassigned in place, so each
    loop is a left fold over its table. *)
Definition strip_token (line token : str) : str :=
  if startswith line token
  then lstrip_chars CLEAN_SEPARATORS (slice_from line (len token))
  else line.

Definition strip_admin (line admin : str) : str :=
  match re_match_admin admin line with
  | Some m => lstrip_chars CLEAN_SEPARATORS (slice_from line (len m))
  | None => line
  end.

Definition rewrite_pass (line : str) : str :=
  let line := fold_left strip_token DYNASTIES line in
  let line := fold_left strip_admin ADMIN_LEVELS line in
  fold_left strip_token PREFIX_VERBS line.

Definition max_iterations : nat := 10.

(** The shape of the [while iteration < max_iterations] loop: run the body,
    leave with [break] when it changed nothing, count the iteration
    otherwise.  The result carries the counter reached when the loop is
    left. *)
Section RewriteLoop.
Variable body : str -> str.
Variable cap : nat.

Equations? rewrite_loop (line : str) (iteration : nat) : str * nat
  by wf (cap - iteration)%nat lt :=
  rewrite_loop line iteration with lt_dec iteration cap := {
    | left _ with str_eqb line (body line) := {
        | true => (body line, iteration)
        | false => rewrite_loop (body line) (S iteration) }
    | right _ => (line, iteration) }.
Proof. lia. Qed.
End RewriteLoop.

Definition clean_loop : str -> nat -> str * nat :=
  rewrite_loop rewrite_pass max_iterations.

Definition clean_line_start (line : str) : str :=
  fst (clean_loop (strip (re_sub_leading_number line)) 0).

(** ** [extract_valid_placename] *)

Definition is_empty (s : str) : bool :=
  match s with [] => true | _ :: _ => false end.

(** The separators of the pattern [^[，。；\s]] of line 96. *)
Definition AFTER_NAME_PUNCTUATION : str := [65292; 12290; 65307].

(** [re.match(r"^[，。；\s]", after_name)] as a truth value. *)
Definition re_match_separator (after_name : str) : bool :=
  match after_name with
  | c :: _ => char_in c AFTER_NAME_PUNCTUATION || is_space c
  | [] => false
  end.

(** One turn of the [for suffix in PLACE_SUFFIXES] loop: [Some] is the
    [return potential_name], [None] is a [continue]. *)
Definition try_suffix (cleaned_start suffix : str) : option str :=
  if negb (str_in suffix cleaned_start) then None
  else
    let idx := find cleaned_start suffix in
    let potential_name := slice_to cleaned_start (idx + 1) in
    if negb ((2 <=? len potential_name) && (len potential_name <=? 3)) then None
    else if any_startswith potential_name STOP_START_WORDS then None
    else
      let after_name := slice_from cleaned_start (idx + 1) in
      if negb (is_empty after_name) && negb (re_match_separator after_name)
         && any_startswith after_name DIRECTION_WORDS
      then None
      else Some potential_name.

Fixpoint first_accepted (cleaned_start : str) (suffixes : list str) : option str :=
  match suffixes with
  | [] => None
  | suffix :: rest =>
      match try_suffix cleaned_start suffix with
      | Some potential_name => Some potential_name
      | None => first_accepted cleaned_start rest
      end
  end.

Definition extract_valid_placename (line : str) : option str :=
  let cleaned_start := clean_line_start line in
  if is_empty cleaned_start then None
  else first_accepted cleaned_start PLACE_SUFFIXES.

(** ** [is_valid_placename] *)

Definition is_valid_placename (name : str) : bool :=
  if negb ((2 <=? len name) && (len name <=? 4)) then false
  else if any_startswith name STOP_START_WORDS then false
  else if negb (any_endswith name PLACE_SUFFIXES) then false
  else true.

(** ** [validate_and_resolve] *)

Record PlaceNameRecord : Type := mkRecord {
  placename : str;
  text : str;
  source : str
}.

(** The assignment [record.placename = name] on the record object. *)
Definition set_placename (record : PlaceNameRecord) (name : str) : PlaceNameRecord :=
  {| placename := name; text := text record; source := source record |}.

Definition record_eqb (a b : PlaceNameRecord) : bool :=
  str_eqb (placename a) (placename b) && str_eqb (text a) (text b)
  && str_eqb (source a) (source b).

(** The alternation [(?:s1|s2|...)] at the head of [s]: the first
    alternative that matches. *)
Fixpoint match_alternation (alternatives : list str) (s : str) : option str :=
  match alternatives with
  | [] => None
  | a :: rest => if startswith s a then Some a else match_alternation rest s
  end.

(** The pattern [([一-龥]{1,2}(?:縣|州|...))] matched at the head of [s]: two
    ideographs are tried before one. *)
Definition re_match_candidate (s : str) : option str :=
  match s with
  | c1 :: rest1 =>
      if is_ideograph c1 then
        let one := option_map (cons c1) (match_alternation PLACE_SUFFIXES rest1) in
        match rest1 with
        | c2 :: rest2 =>
            if is_ideograph c2 then
              match match_alternation PLACE_SUFFIXES rest2 with
              | Some suffix => Some (c1 :: c2 :: suffix)
              | None => one
              end
            else one
        | [] => one
        end
      else None
  | [] => None
  end.

(** [pattern.findall(text)]: the scan goes left to right; after a match it
    resumes behind the match, which [skip] counts down. *)
Fixpoint findall_from (skip : nat) (s : str) : list str :=
  match s with
  | [] => []
  | _ :: s' =>
      match skip with
      | S k => findall_from k s'
      | O =>
          match re_match_candidate s with
          | Some m => m :: findall_from (length m - 1) s'
          | None => findall_from 0 s'
          end
      end
  end.

Definition findall (s : str) : list str := findall_from 0 s.

(** [x in l] on a list of strings. *)
Definition str_mem (x : str) (l : list str) : bool := existsb (str_eqb x) l.

Definition validate_and_resolve (record : PlaceNameRecord) : option PlaceNameRecord :=
  let original := placename record in
  let candidates := findall (text record) in
  let valid_candidates := filter is_valid_placename candidates in
  let record :=
    match valid_candidates with
    | first :: _ =>
        if negb (str_mem original valid_candidates) || negb (is_valid_placename original)
        then set_placename record first
        else record
    | [] => record
    end in
  if negb (is_valid_placename (placename record)) then None else Some record.

(** ** [extract_from_directory] *)

(** The dictionary [aggregated_data]: keys [(placename, fname.name)], values
    the list of contributions, kept in insertion order. *)
Definition key : Type := str * str.
Definition buckets : Type := list (key * list str).

Definition key_eqb (a b : key) : bool :=
  str_eqb (fst a) (fst b) && str_eqb (snd a) (snd b).

(** [k in d] *)
Definition dict_has (k : key) (d : buckets) : bool :=
  existsb (fun e => key_eqb k (fst e)) d.

(** [d[k]], for reading *)
Fixpoint dict_get (k : key) (d : buckets) : option (list str) :=
  match d with
  | [] => None
  | (k', v) :: d' => if key_eqb k k' then Some v else dict_get k d'
  end.

(** [d[k] = v]: an existing key keeps its place, a new one goes last. *)
Fixpoint dict_set (k : key) (v : list str) (d : buckets) : buckets :=
  match d with
  | [] => [(k, v)]
  | (k', v') :: d' =>
      if key_eqb k k' then (k', v) :: d' else (k', v') :: dict_set k v d'
  end.

(** [d[k].append(x)]; [None] is the [KeyError] of a missing key. *)
Fixpoint dict_append (k : key) (x : str) (d : buckets) : option buckets :=
  match d with
  | [] => None
  | (k', v) :: d' =>
      if key_eqb k k' then Some ((k', v ++ [x]) :: d')
      else option_map (cons (k', v)) (dict_append k x d')
  end.

Notation "x <- m ;; f" := (match m with Some x => f | None => None end)
  (at level 61, m at next level, right associativity).

(** The state of the scan: the dictionary and [last_place]. *)
Definition scan_state : Type := buckets * option str.

(** The tests [if p_name:] and [elif last_place:] on an [Optional[str]]:
    [None] and the empty string are false; a true test gives the string. *)
Definition truthy (o : option str) : option str :=
  match o with
  | Some s => if is_empty s then None else Some s
  | None => None
  end.

(** The body of [for line in f], on one raw line of the file [fname]. *)
Definition process_line (fname : str) (st : scan_state) (raw : str) : option scan_state :=
  let '(aggregated_data, last_place) := st in
  let line := strip raw in
  if is_empty line then Some st
  else
    let p_name := extract_valid_placename line in
    match truthy p_name with
    | Some name =>
        let content_start_idx := find line name + len name in
        let content :=
          lstrip_chars CONTENT_SEPARATORS (slice_from line content_start_idx) in
        let k := (name, fname) in
        let aggregated_data :=
          if negb (dict_has k aggregated_data)
          then dict_set k [] aggregated_data else aggregated_data in
        aggregated_data <-
          (if negb (is_empty content)
           then dict_append k content aggregated_data
           else Some aggregated_data) ;;
        Some (aggregated_data, p_name)
    | None =>
        match truthy last_place with
        | Some place =>
            aggregated_data <- dict_append (place, fname) line aggregated_data ;;
            Some (aggregated_data, last_place)
        | None => Some st
        end
    end.

Fixpoint process_lines (fname : str) (st : scan_state) (lines : list str) : option scan_state :=
  match lines with
  | [] => Some st
  | raw :: rest => st' <- process_line fname st raw ;; process_lines fname st' rest
  end.

(** A source document: [fname.name] and the lines the file iterator yields.
    The directory listing arrives sorted. *)
Definition document : Type := str * list str.

(** The [for fname in files] loop: [last_place] starts as [None] in each
    file, the dictionary is carried through. *)
Fixpoint aggregate_from (aggregated_data : buckets) (files : list document) : option buckets :=
  match files with
  | [] => Some aggregated_data
  | (fname, lines) :: rest =>
      st <- process_lines fname (aggregated_data, None) lines ;;
      aggregate_from (fst st) rest
  end.

Definition aggregate (files : list document) : option buckets := aggregate_from [] files.

Definition SPACE : str := [32].

Definition combined_text (texts : list str) : str := join SPACE (dict_fromkeys texts).

(** The second loop: one record for each bucket whose joined text is not
    empty. *)
Fixpoint make_records (items : buckets) : list PlaceNameRecord :=
  match items with
  | [] => []
  | ((name, src), texts) :: rest =>
      let combined := combined_text texts in
      if negb (is_empty combined)
      then mkRecord name combined src :: make_records rest
      else make_records rest
  end.

(** The two loops of [extract_from_directory], lines 120 to 164, on the list
    [files] that lines 115 to 118 build; [None] is a [KeyError].  The
    listing itself is [sorted_txt_files] below, and [extract_from_input_dir]
    is the method as a whole. *)
Definition extract_from_directory (files : list document) : option (list PlaceNameRecord) :=
  aggregated_data <- aggregate files ;;
  Some (make_records aggregated_data).

(** ** The listing of [input_dir]: lines 115 to 118 *)

(** What the method can raise. *)
Inductive error : Type := ValueError | TypeError | KeyError.

Definition result (A : Type) : Type := (error + A)%type.

(** [s.rfind(c)] for one character: the highest index of [c], [-1] if none. *)
Fixpoint rfind_from (i : Z) (c : char) (s : str) : Z :=
  match s with
  | [] => -1
  | x :: s' =>
      let r := rfind_from (i + 1) c s' in
      if 0 <=? r then r else if x =? c then i else -1
  end.

Definition rfind_char (s : str) (c : char) : Z := rfind_from 0 c s.

Definition DOT : char := 46.

(** [PurePath.suffix] and [PurePath.stem] (CPython 3.11), from the name of
    the entry: the last dot splits the name unless it is its first or its
    last character. *)
Definition path_suffix (name : str) : str :=
  let i := rfind_char name DOT in
  if (0 <? i) && (i <? len name - 1) then slice_from name i else [].

Definition path_stem (name : str) : str :=
  let i := rfind_char name DOT in
  if (0 <? i) && (i <? len name - 1) then slice_to name i else name.

(** .txt *)
Definition TXT : str := [46; 116; 120; 116].

(** The characters of [str.isdigit] that are not decimal digits: the
    superscript, subscript, circled and similar digits (Unicode 14.0), as
    ranges. *)
Definition other_digit_ranges : list (Z * Z) :=
  [(178, 179); (185, 185); (4969, 4977); (6618, 6618); (8304, 8304);
   (8308, 8313); (8320, 8329); (9312, 9320); (9332, 9340); (9352, 9360);
   (9450, 9450); (9461, 9469); (9471, 9471); (10102, 10110); (10112, 10120);
   (10122, 10130); (68160, 68163); (69216, 69224); (69714, 69722);
   (127232, 127242)].

Definition is_digit (c : char) : bool :=
  is_decimal c ||
  existsb (fun r => (fst r <=? c) && (c <=? snd r)) other_digit_ranges.

(** [s.isdigit()]: at least one character, all of them digits. *)
Definition isdigit (s : str) : bool := negb (is_empty s) && forallb is_digit s.

(** The value of a decimal digit: its offset in its run of ten. *)
Fixpoint decimal_value_in (zeros : list Z) (c : char) : option Z :=
  match zeros with
  | [] => None
  | z :: rest =>
      if (z <=? c) && (c <? z + 10) then Some (c - z) else decimal_value_in rest c
  end.

Definition decimal_value (c : char) : option Z := decimal_value_in decimal_zeros c.

(** [int(s)] on a string of digits: the number in base ten; [None] is the
    [ValueError] that a digit which is not decimal raises.  (The cap of
    [int] on the number of digits, 4300, is above the length of a file
    name.) *)
Fixpoint int_from (acc : Z) (s : str) : option Z :=
  match s with
  | [] => Some acc
  | c :: s' =>
      match decimal_value c with
      | Some v => int_from (10 * acc + v) s'
      | None => None
      end
  end.

Definition int_of_digits (s : str) : option Z := int_from 0 s.

(** The key of the sort: [int(x.stem) if x.stem.isdigit() else x.stem]. *)
Inductive sort_key : Type :=
| IntKey (n : Z)
| StrKey (s : str).

Definition key_of (name : str) : result sort_key :=
  let stem := path_stem name in
  if isdigit stem then
    match int_of_digits stem with
    | Some n => inr (IntKey n)
    | None => inl ValueError
    end
  else inr (StrKey stem).

(** [a < b] on strings: by code points, a proper prefix first. *)
Fixpoint str_ltb (a b : str) : bool :=
  match a, b with
  | _, [] => false
  | [], _ :: _ => true
  | x :: a', y :: b' => (x <? y) || ((x =? y) && str_ltb a' b')
  end.

(** [a < b] on keys; [None] is the [TypeError] of an [int] against a [str]. *)
Definition key_ltb (a b : sort_key) : option bool :=
  match a, b with
  | IntKey m, IntKey n => Some (m <? n)
  | StrKey s, StrKey t => Some (str_ltb s t)
  | _, _ => None
  end.

(** [sorted(..., key=...)].  The keys are computed first, in the order of
    the listing; the sort is stable and compares keys with [<].  It is
    written as an insertion sort: any sort by comparisons has to compare
    the two keys that end up next to each other, so it raises exactly when
    keys of both kinds are present, as this one does. *)
Definition keyed : Type := sort_key * document.

Fixpoint with_keys (entries : list document) : result (list keyed) :=
  match entries with
  | [] => inr []
  | f :: rest =>
      match key_of (fst f) with
      | inl e => inl e
      | inr k =>
          match with_keys rest with
          | inl e => inl e
          | inr ks => inr ((k, f) :: ks)
          end
      end
  end.

Fixpoint insert_keyed (x : keyed) (l : list keyed) : result (list keyed) :=
  match l with
  | [] => inr [x]
  | y :: l' =>
      match key_ltb (fst y) (fst x) with
      | None => inl TypeError
      | Some true =>
          match insert_keyed x l' with
          | inl e => inl e
          | inr r => inr (y :: r)
          end
      | Some false => inr (x :: y :: l')
      end
  end.

Fixpoint sort_keyed (l : list keyed) : result (list keyed) :=
  match l with
  | [] => inr []
  | x :: l' =>
      match sort_keyed l' with
      | inl e => inl e
      | inr r => insert_keyed x r
      end
  end.

(** [f.suffix == ".txt"] *)
Definition is_txt (f : document) : bool := str_eqb (path_suffix (fst f)) TXT.

(** The list [files]: the entries of the directory, in the order
    [iterdir] yields them, filtered and sorted.  An entry is given by its
    name and by the lines that reading it yields; opening and decoding a
    file are taken to succeed. *)
Definition sorted_txt_files (entries : list document) : result (list document) :=
  match with_keys (filter is_txt entries) with
  | inl e => inl e
  | inr ks =>
      match sort_keyed ks with
      | inl e => inl e
      | inr sorted => inr (map snd sorted)
      end
  end.

(** [extract_from_directory] as a whole, on the entries of [input_dir]. *)
Definition extract_from_input_dir (entries : list document) : result (list PlaceNameRecord) :=
  match sorted_txt_files entries with
  | inl e => inl e
  | inr files =>
      match extract_from_directory files with
      | Some records => inr records
      | None => inl KeyError
      end
  end.

(** * Vocabulary of the properties *)

Definition is_suffix (t s : str) : Prop := exists pre, s = pre ++ t.
Definition is_prefix (p s : str) : Prop := exists post, s = p ++ post.
Definition is_substring (sub s : str) : Prop := exists pre post, s = pre ++ sub ++ post.

Definition single_char (s : str) : Prop := exists c, s = [c].

(** What a [return potential_name] of the suffix loop establishes. *)
Record accepted (cleaned_start suffix potential_name after_name : str) : Prop := {
  acc_split : cleaned_start = potential_name ++ after_name;
  acc_len : 2 <= len potential_name <= 3;
  acc_stop : any_startswith potential_name STOP_START_WORDS = false;
  acc_after :
    after_name = [] \/ re_match_separator after_name = true \/
    any_startswith after_name DIRECTION_WORDS = false;
  acc_direction : any_startswith after_name DIRECTION_WORDS = false;
  acc_suffix : single_char suffix -> is_suffix suffix potential_name
}.

(** The string begins with one of ， 。 ； or a space. *)
Definition begins_with_separator (c : str) : bool :=
  match c with
  | x :: _ => char_in x CONTENT_SEPARATORS
  | [] => false
  end.

(** A name the locator returned on some line. *)
Definition detected (name : str) : Prop :=
  exists line, extract_valid_placename line = Some name.

(** A whole stripped line on which the locator found nothing. *)
Definition continuation_line (c : str) : Prop :=
  (exists raw, c = strip raw) /\ extract_valid_placename c = None.

Definition contribution_ok (c : str) : Prop :=
  c <> [] /\ startswith c SPACE = false /\
  (begins_with_separator c = false \/ continuation_line c).

Definition bucket_ok (e : key * list str) : Prop :=
  detected (fst (fst e)) /\ Forall contribution_ok (snd e).

Definition buckets_ok (d : buckets) : Prop :=
  Forall bucket_ok d /\ NoDup (map fst d).

(** Between two lines of the file [fname]: the buckets are well formed and
    the open name, if any, has its bucket. *)
Definition state_ok (fname : str) (st : scan_state) : Prop :=
  buckets_ok (fst st) /\
  forall place, truthy (snd st) = Some place -> dict_has (place, fname) (fst st) = true.

Definition record_key (r : PlaceNameRecord) : key := (placename r, source r).

(** One or two ideographs followed by a suffix of the table. *)
Definition candidate_shape (m : str) : Prop :=
  exists ideographs suffix,
    m = ideographs ++ suffix /\
    (length ideographs = 1 \/ length ideographs = 2)%nat /\
    Forall (fun c => is_ideograph c = true) ideographs /\
    In suffix PLACE_SUFFIXES.

(** What [findall] reports: the matches lie in the text from left to right
    without overlap, each is the match of the pattern at its position, and
    the pattern matches at no position of the text in between. *)
Inductive scanned : list str -> str -> Prop :=
| scanned_nil : forall s,
    (forall g1 g2, s = g1 ++ g2 -> re_match_candidate g2 = None) ->
    scanned [] s
| scanned_cons : forall gap m ms rest,
    (forall g1 g2, gap = g1 ++ g2 -> g2 <> [] ->
                   re_match_candidate (g2 ++ m ++ rest) = None) ->
    re_match_candidate (m ++ rest) = Some m ->
    scanned ms rest ->
    scanned (m :: ms) (gap ++ m ++ rest).

(** All contributions held in the dictionary. *)
Definition stored_contributions (d : buckets) : list str := concat (map snd d).

(** The text after the first occurrence of the name, without its leading
    separators: [content] in [extract_from_directory]. *)
Definition residual_content (line name : str) : str :=
  lstrip_chars CONTENT_SEPARATORS (slice_from line (find line name + len name)).

(** What the bucket of a detected name receives from its own line. *)
Definition residual_contribution (line name : str) : list str :=
  if is_empty (residual_content line name) then [] else [residual_content line name].

(** The records after re-resolution: each record of the buckets goes through
    [validate_and_resolve]; those it discards are dropped. *)
Fixpoint resolve_all (records : list PlaceNameRecord) : list PlaceNameRecord :=
  match records with
  | [] => []
  | r :: rest =>
      match validate_and_resolve r with
      | Some r' => r' :: resolve_all rest
      | None => resolve_all rest
      end
  end.

(** The line is as it was, or begins with none of the characters a rewrite
    strips behind a token. *)
Definition untouched_or_stripped (before after : str) : Prop :=
  after = before \/
  match after with c :: _ => char_in c CLEAN_SEPARATORS = false | [] => True end.

(** [raw] is a line of a file named [src]. *)
Definition line_of (files : list document) (src raw : str) : Prop :=
  exists lines, In (src, lines) files /\ In raw lines.

(** The name of the key was detected on a line of the file of the key. *)
Definition key_from (files : list document) (k : key) : Prop :=
  exists raw, line_of files (snd k) raw /\
              extract_valid_placename (strip raw) = Some (fst k).

(** The contribution is the end of a stripped line of the file of the key. *)
Definition contribution_from (files : list document) (k : key) (c : str) : Prop :=
  exists raw, line_of files (snd k) raw /\ is_suffix c (strip raw).

Definition bucket_from (files : list document) (e : key * list str) : Prop :=
  key_from files (fst e) /\ Forall (contribution_from files (fst e)) (snd e).

(** No bucket of the dictionary belongs to the file [fname]. *)
Definition foreign (fname : str) (d : buckets) : Prop :=
  Forall (fun e => snd (fst e) <> fname) d.

(** No name is detected on the line. *)
Definition plain_line (raw : str) : Prop :=
  extract_valid_placename (strip raw) = None.

(** The name that is open after the lines of a file, [current] being open
    before them. *)
Fixpoint open_name (current : option str) (lines : list str) : option str :=
  match lines with
  | [] => current
  | raw :: rest =>
      match extract_valid_placename (strip raw) with
      | Some name => open_name (Some name) rest
      | None => open_name current rest
      end
  end.

(** The names detected on the lines of a file, line by line. *)
Fixpoint detected_names (lines : list str) : list str :=
  match lines with
  | [] => []
  | raw :: rest =>
      match extract_valid_placename (strip raw) with
      | Some name => name :: detected_names rest
      | None => detected_names rest
      end
  end.

(** What one line gives to [name]: what follows the name when the line
    detects it, the whole line when it detects nothing and [name] is open. *)
Definition line_contribution (name : str) (current : option str) (raw : str) : list str :=
  match extract_valid_placename (strip raw) with
  | Some detected =>
      if str_eqb detected name then residual_contribution (strip raw) detected else []
  | None =>
      match current with
      | Some place =>
          if str_eqb place name && negb (is_empty (strip raw)) then [strip raw] else []
      | None => []
      end
  end.

(** The lines of a file attributed to [name], in the order of the file. *)
Fixpoint attributed (name : str) (current : option str) (lines : list str) : list str :=
  match lines with
  | [] => []
  | raw :: rest =>
      line_contribution name current raw
      ++ attributed name (open_name current [raw]) rest
  end.

(** One bucket for each distinct name detected in the file, in the order
    of first detection, holding the lines attributed to the name. *)
Definition named_buckets (fname : str) (names : list str) (g : str -> list str) : buckets :=
  map (fun name => ((name, fname), g name)) names.

Definition file_buckets (f : document) : buckets :=
  named_buckets (fst f) (dict_fromkeys (detected_names (snd f)))
                (fun name => attributed name None (snd f)).

Definition pass_buckets (files : list document) : buckets :=
  flat_map file_buckets files.

(** The names and the buckets after one more line. *)
Definition names_after (names : list str) (raw : str) : list str :=
  match extract_valid_placename (strip raw) with
  | Some name => if str_mem name names then names else names ++ [name]
  | None => names
  end.

(** The key is an [int]. *)
Definition is_int_key (k : sort_key) : bool :=
  match k with IntKey _ => true | StrKey _ => false end.

(** [a] may stand before [b]: [b < a] is false. *)
Definition key_le (a b : sort_key) : Prop := key_ltb b a = Some false.

Definition keyed_le (x y : keyed) : Prop := key_le (fst x) (fst y).

Definition keyed_ok (x : keyed) : Prop := key_of (fst (snd x)) = inr (fst x).

(** The file [f1] may stand before [f2] in the sorted listing. *)
Definition file_le (f1 f2 : document) : Prop :=
  exists k1 k2,
    key_of (fst f1) = inr k1 /\ key_of (fst f2) = inr k2 /\ key_le k1 k2.

(** The records a file gives when it is alone. *)
Definition file_records (f : document) : list PlaceNameRecord :=
  make_records (file_buckets f).

(** ** Worked inputs *)

(** 漢置江陵縣屬南郡 *)
Definition scenario_a_line : str :=
  [28450; 32622; 27743; 38517; 32291; 23660; 21335; 37089].

(** 江陵縣屬南郡 and 江陵縣 *)
Definition jiangling_line : str := [27743; 38517; 32291; 23660; 21335; 37089].
Definition jiangling : str := [27743; 38517; 32291].

(** 屬南郡 *)
Definition shu_nan_jun : str := [23660; 21335; 37089].

(** ，又東 *)
Definition comma_line : str := [65292; 21448; 26481].

(** 1.txt *)
Definition file_1 : str := [49; 46; 116; 120; 116].

Definition NEWLINE : str := [10].

(** A directory with the one file 1.txt, of two lines. *)
Definition two_line_files : list document :=
  [(file_1, [jiangling_line ++ NEWLINE; comma_line ++ NEWLINE])].

(** Eleven times 漢, then X. *)
Definition eleven_dynasties : str := repeat 28450 11 ++ [88].

(** 武昌縣本漢舊縣 and 又東 *)
Definition wuchang_line : str := [27494; 26124; 32291; 26412; 28450; 33290; 32291].
Definition wuchang : str := [27494; 26124; 32291].
Definition you_dong : str := [21448; 26481].

(** The file 1.txt in which 江陵縣 is detected, then 武昌縣, then 江陵縣
    again, followed by a continuation line. *)
Definition reopening_files : list document :=
  [(file_1, [jiangling_line; wuchang_line; [27743; 38517; 32291; 65292; 21448; 26481];
             you_dong])].

(** 2.txt and notes.md *)
Definition file_2 : str := [50; 46; 116; 120; 116].
Definition notes_md : str := [110; 111; 116; 101; 115; 46; 109; 100].

(** A directory listed as 2.txt, notes.md, 1.txt. *)
Definition listed_entries : list document :=
  [(file_2, [wuchang_line]); (notes_md, [jiangling_line]);
   (file_1, [jiangling_line; comma_line])].

(** * Properties *)

(** ** Strings *)

Lemma is_suffix_refl s : is_suffix s s.
Proof. exists []. reflexivity. Qed.

Lemma is_suffix_trans a b c : is_suffix a b -> is_suffix b c -> is_suffix a c.
Proof.
  intros [p Hp] [q Hq]. exists (q ++ p). subst. now rewrite app_assoc.
Qed.

Lemma suffix_substring t s u : is_suffix t s -> is_substring s u -> is_substring t u.
Proof.
  intros [p ->] (a & b & ->). exists (a ++ p), b.
  now rewrite <- !app_assoc.
Qed.

Lemma prefix_substring p s u : is_prefix p s -> is_substring s u -> is_substring p u.
Proof.
  intros [q ->] (a & b & ->). exists a, (q ++ b).
  now rewrite <- !app_assoc.
Qed.

Lemma str_eqb_eq a b : str_eqb a b = true <-> a = b.
Proof.
  revert b. induction a as [|x a IH]; intros [|y b]; simpl; try easy.
  rewrite andb_true_iff, Z.eqb_eq, IH. split.
  - now intros [-> ->].
  - now intros [= -> ->].
Qed.

Lemma str_eqb_refl a : str_eqb a a = true.
Proof. now apply str_eqb_eq. Qed.

Lemma key_eqb_eq a b : key_eqb a b = true <-> a = b.
Proof.
  destruct a as [a1 a2], b as [b1 b2]. unfold key_eqb. simpl.
  rewrite andb_true_iff, !str_eqb_eq. split.
  - now intros [-> ->].
  - now intros [= -> ->].
Qed.

Lemma key_eqb_refl a : key_eqb a a = true.
Proof. now apply key_eqb_eq. Qed.

Lemma key_eqb_neq a b : key_eqb a b = false <-> a <> b.
Proof.
  rewrite <- key_eqb_eq. destruct (key_eqb a b); split; congruence.
Qed.

Lemma startswith_prefix s p : startswith s p = true <-> is_prefix p s.
Proof.
  revert s. induction p as [|y p IH]; intros s; simpl.
  - split; [exists s; reflexivity | now destruct s].
  - destruct s as [|x s]; simpl.
    + split; [discriminate | intros [t Ht]; discriminate].
    + rewrite andb_true_iff, Z.eqb_eq, IH. split.
      * intros [-> [t ->]]. now exists t.
      * intros [t [= -> ->]]. split; [reflexivity | now exists t].
Qed.

Lemma startswith_app p t : startswith (p ++ t) p = true.
Proof. apply startswith_prefix. now exists t. Qed.

Lemma endswith_suffix s p : endswith s p = true <-> is_suffix p s.
Proof.
  unfold endswith. rewrite startswith_prefix. split.
  - intros [t Ht]. exists (rev t).
    rewrite <- (rev_involutive s), Ht, rev_app_distr, rev_involutive. reflexivity.
  - intros [t ->]. exists (rev t). now rewrite rev_app_distr.
Qed.

Lemma len_app a b : len (a ++ b) = len a + len b.
Proof. unfold len. rewrite length_app. lia. Qed.

Lemma len_nonneg s : 0 <= len s.
Proof. unfold len. lia. Qed.

Lemma dropwhile_suffix p s : is_suffix (dropwhile p s) s.
Proof.
  induction s as [|c s IH]; simpl.
  - apply is_suffix_refl.
  - destruct (p c).
    + destruct IH as [pre Hpre]. exists (c :: pre). simpl. now f_equal.
    + apply is_suffix_refl.
Qed.

Lemma dropwhile_head p s c t : dropwhile p s = c :: t -> p c = false.
Proof.
  induction s as [|x s IH]; simpl; [discriminate|].
  destruct (p x) eqn:E; [exact IH|]. now intros [= <- <-].
Qed.

Lemma slice_split s i : s = slice_to s i ++ slice_from s i.
Proof. unfold slice_to, slice_from. now rewrite firstn_skipn. Qed.

Lemma slice_from_suffix s i : is_suffix (slice_from s i) s.
Proof. exists (slice_to s i). apply slice_split. Qed.

Lemma slice_index_app a b : slice_index (a ++ b) (len a) = length a.
Proof.
  unfold slice_index. pose proof (len_nonneg a). pose proof (len_nonneg b).
  destruct (Z.ltb_spec (len a) 0); [lia|].
  rewrite len_app. unfold len in *. lia.
Qed.

Lemma slice_from_app a b : slice_from (a ++ b) (len a) = b.
Proof.
  unfold slice_from. rewrite slice_index_app.
  rewrite skipn_app, skipn_all, Nat.sub_diag. reflexivity.
Qed.

Lemma slice_to_app a b : slice_to (a ++ b) (len a) = a.
Proof.
  unfold slice_to. rewrite slice_index_app.
  rewrite firstn_app, firstn_all, Nat.sub_diag. simpl. apply app_nil_r.
Qed.

Lemma strip_substring s : is_substring (strip s) s.
Proof.
  unfold strip, rstrip, lstrip.
  destruct (dropwhile_suffix is_space s) as [pre Hpre].
  destruct (dropwhile_suffix is_space (rev (dropwhile is_space s))) as [post Hpost].
  exists pre, (rev post).
  rewrite <- rev_app_distr, <- Hpost, rev_involutive. exact Hpre.
Qed.

Lemma strip_head raw c t : strip raw = c :: t -> is_space c = false.
Proof.
  unfold strip, rstrip, lstrip. intros H.
  set (l := dropwhile is_space raw) in *.
  destruct (dropwhile_suffix is_space (rev l)) as [pre Hpre].
  assert (Hl : l = rev (dropwhile is_space (rev l)) ++ rev pre).
  { rewrite <- rev_app_distr, <- Hpre, rev_involutive. reflexivity. }
  rewrite H in Hl. simpl in Hl.
  apply (dropwhile_head is_space raw c (t ++ rev pre)). exact Hl.
Qed.

(** [find] and [in] agree, and [find] locates an occurrence. *)
Lemma find_nil sub : find [] sub = if startswith [] sub then 0 else -1.
Proof. reflexivity. Qed.

Lemma find_cons c s sub :
  find (c :: s) sub =
  if startswith (c :: s) sub then 0
  else if find s sub <? 0 then -1 else find s sub + 1.
Proof. reflexivity. Qed.

Lemma str_in_cons sub c s :
  str_in sub (c :: s) = startswith (c :: s) sub || str_in sub s.
Proof. reflexivity. Qed.

Lemma find_occurrence s sub :
  0 <= find s sub ->
  exists pre post, s = pre ++ sub ++ post /\ len pre = find s sub.
Proof.
  induction s as [|c s IH].
  - rewrite find_nil. destruct (startswith [] sub) eqn:E; [|lia].
    apply startswith_prefix in E. destruct E as [t Ht].
    intros _. exists [], t. split; [exact Ht | reflexivity].
  - rewrite find_cons. destruct (startswith (c :: s) sub) eqn:E.
    + apply startswith_prefix in E. destruct E as [t Ht].
      intros _. exists [], t. split; [exact Ht | reflexivity].
    + destruct (Z.ltb_spec (find s sub) 0) as [Hlt|Hge]; [lia|].
      intros _. destruct (IH Hge) as (pre & post & Hs & Hlen).
      exists (c :: pre), post. split.
      * simpl. now f_equal.
      * unfold len in *. simpl length. lia.
Qed.

Lemma find_substring s sub : is_substring sub s -> 0 <= find s sub.
Proof.
  intros (pre & post & ->). induction pre as [|c pre IH].
  - simpl app. destruct (sub ++ post) as [|c t] eqn:E.
    + rewrite find_nil. destruct sub; [simpl; lia | discriminate].
    + rewrite find_cons, <- E, startswith_app. lia.
  - simpl app. rewrite find_cons.
    destruct (startswith (c :: pre ++ sub ++ post) sub); [lia|].
    destruct (Z.ltb_spec (find (pre ++ sub ++ post) sub) 0); lia.
Qed.

Lemma str_in_find sub s : str_in sub s = true <-> 0 <= find s sub.
Proof.
  induction s as [|c s IH].
  - rewrite find_nil. unfold str_in. rewrite orb_false_r.
    destruct (startswith [] sub); split; (lia || easy).
  - rewrite find_cons, str_in_cons.
    destruct (startswith (c :: s) sub); simpl; [split; (lia || easy)|].
    rewrite IH. destruct (Z.ltb_spec (find s sub) 0); lia.
Qed.

(** ** The rewrite loop *)

Lemma rewrite_loop_step body cap line iteration :
  rewrite_loop body cap line iteration =
  if lt_dec iteration cap then
    if str_eqb line (body line) then (body line, iteration)
    else rewrite_loop body cap (body line) (S iteration)
  else (line, iteration).
Proof.
  rewrite rewrite_loop_equation_1. simpl.
  destruct (lt_dec iteration cap); simpl; [|reflexivity].
  destruct (str_eqb line (body line)); reflexivity.
Qed.

Lemma iter_shift (body : str -> str) n line :
  Nat.iter n body (body line) = Nat.iter (S n) body line.
Proof.
  induction n as [|n IH]; simpl; [reflexivity|]. now rewrite IH.
Qed.

(** The loop leaves with a counter [n] between its start and the cap; it has
    then applied the body [n - iteration] times to the line it returns, and
    it left below the cap only on a line the body does not change. *)
Lemma rewrite_loop_spec body cap :
  forall k line iteration,
    (cap - iteration = k)%nat ->
    exists n,
      (iteration <= n)%nat /\ (n <= Nat.max iteration cap)%nat /\
      rewrite_loop body cap line iteration =
        (Nat.iter (n - iteration) body line, n) /\
      ((n < cap)%nat ->
        body (Nat.iter (n - iteration) body line) = Nat.iter (n - iteration) body line).
Proof.
  induction k as [|k IH]; intros line iteration Hk;
    rewrite rewrite_loop_step; destruct (lt_dec iteration cap) as [Hlt|Hge];
    try lia.
  - exists iteration. rewrite Nat.sub_diag. simpl. repeat split; lia.
  - destruct (str_eqb line (body line)) eqn:E.
    + apply str_eqb_eq in E. exists iteration. rewrite Nat.sub_diag. simpl.
      repeat split; try lia; now rewrite <- E.
    + destruct (IH (body line) (S iteration)) as (n & H1 & H2 & H3 & H4); [lia|].
      exists n. replace (n - iteration)%nat with (S (n - S iteration)) by lia.
      rewrite <- iter_shift. repeat split; try lia; assumption.
Qed.

Lemma rewrite_loop_suffix body cap :
  (forall line, is_suffix (body line) line) ->
  forall line iteration, is_suffix (fst (rewrite_loop body cap line iteration)) line.
Proof.
  intros Hbody line iteration.
  destruct (rewrite_loop_spec body cap _ line iteration eq_refl)
    as (n & _ & _ & -> & _).
  simpl. induction (n - iteration)%nat as [|m IH]; simpl.
  - apply is_suffix_refl.
  - eapply is_suffix_trans; [apply Hbody | exact IH].
Qed.

(** ** Every rewrite of [clean_line_start] removes characters from the front *)

Lemma lstrip_chars_suffix chars s : is_suffix (lstrip_chars chars s) s.
Proof. apply dropwhile_suffix. Qed.

Lemma strip_token_suffix line token : is_suffix (strip_token line token) line.
Proof.
  unfold strip_token. destruct (startswith line token).
  - eapply is_suffix_trans; [apply lstrip_chars_suffix | apply slice_from_suffix].
  - apply is_suffix_refl.
Qed.

Lemma strip_admin_suffix line admin : is_suffix (strip_admin line admin) line.
Proof.
  unfold strip_admin. destruct (re_match_admin admin line).
  - eapply is_suffix_trans; [apply lstrip_chars_suffix | apply slice_from_suffix].
  - apply is_suffix_refl.
Qed.

Lemma fold_left_suffix (f : str -> str -> str) tokens :
  (forall line token, is_suffix (f line token) line) ->
  forall line, is_suffix (fold_left f tokens line) line.
Proof.
  intros Hf. induction tokens as [|t tokens IH]; intros line; simpl.
  - apply is_suffix_refl.
  - eapply is_suffix_trans; [apply IH | apply Hf].
Qed.

Lemma rewrite_pass_suffix line : is_suffix (rewrite_pass line) line.
Proof.
  unfold rewrite_pass.
  eapply is_suffix_trans; [apply fold_left_suffix, strip_token_suffix|].
  eapply is_suffix_trans; [apply fold_left_suffix, strip_admin_suffix|].
  apply fold_left_suffix, strip_token_suffix.
Qed.

Lemma re_sub_leading_number_suffix line : is_suffix (re_sub_leading_number line) line.
Proof.
  unfold re_sub_leading_number. destruct line as [|c line]; [apply is_suffix_refl|].
  destruct (is_decimal c); [|apply is_suffix_refl].
  eapply is_suffix_trans; apply dropwhile_suffix.
Qed.

Lemma clean_line_start_suffix line :
  is_suffix (clean_line_start line) (strip (re_sub_leading_number line)).
Proof. apply rewrite_loop_suffix, rewrite_pass_suffix. Qed.

Lemma clean_line_start_substring line : is_substring (clean_line_start line) line.
Proof.
  eapply suffix_substring; [apply clean_line_start_suffix|].
  destruct (strip_substring (re_sub_leading_number line)) as (a & b & Hab).
  destruct (re_sub_leading_number_suffix line) as [p Hp].
  exists (p ++ a), b. rewrite Hp at 1. rewrite Hab at 1.
  now rewrite <- !app_assoc.
Qed.

(** ** The candidate locator *)

Lemma PLACE_SUFFIXES_single : Forall single_char PLACE_SUFFIXES.
Proof. repeat constructor; eexists; reflexivity. Qed.

Lemma DIRECTION_WORDS_not_separator after :
  any_startswith after DIRECTION_WORDS = true -> re_match_separator after = false.
Proof.
  destruct after as [|c after]; [reflexivity|].
  unfold any_startswith, DIRECTION_WORDS. simpl.
  rewrite !orb_true_iff, !andb_true_iff, !Z.eqb_eq.
  intros H. decompose [or and] H; subst; try discriminate; reflexivity.
Qed.

Lemma try_suffix_accepted cleaned_start suffix potential_name :
  try_suffix cleaned_start suffix = Some potential_name ->
  accepted cleaned_start suffix potential_name
    (slice_from cleaned_start (find cleaned_start suffix + 1)).
Proof.
  unfold try_suffix.
  destruct (str_in suffix cleaned_start) eqn:Hin; cbn [negb]; [|discriminate].
  set (idx := find cleaned_start suffix).
  destruct ((2 <=? len (slice_to cleaned_start (idx + 1)))
            && (len (slice_to cleaned_start (idx + 1)) <=? 3)) eqn:Hlen;
    cbn [negb]; [|discriminate].
  destruct (any_startswith (slice_to cleaned_start (idx + 1)) STOP_START_WORDS) eqn:Hstop;
    [discriminate|].
  set (after_name := slice_from cleaned_start (idx + 1)).
  destruct (negb (is_empty after_name) && negb (re_match_separator after_name)
            && any_startswith after_name DIRECTION_WORDS) eqn:Hafter; [discriminate|].
  intros [= <-].
  apply andb_true_iff in Hlen. destruct Hlen as [H2 H3].
  apply Z.leb_le in H2, H3.
  assert (Hdir : any_startswith after_name DIRECTION_WORDS = false).
  { destruct (any_startswith after_name DIRECTION_WORDS) eqn:Hd; [|reflexivity].
    rewrite (DIRECTION_WORDS_not_separator _ Hd) in Hafter.
    destruct after_name; [discriminate Hd | discriminate Hafter]. }
  split; auto.
  - apply slice_split.
  - intros [c ->]. apply str_in_find in Hin.
    destruct (find_occurrence _ _ Hin) as (pre & post & Hs & Hpre).
    fold idx in Hpre. exists pre.
    assert (Hcs : cleaned_start = (pre ++ [c]) ++ post) by (now rewrite <- app_assoc).
    rewrite Hcs at 1. replace (idx + 1) with (len (pre ++ [c])).
    + apply slice_to_app.
    + rewrite len_app, Hpre. reflexivity.
Qed.

Lemma first_accepted_accepted cleaned_start suffixes potential_name :
  first_accepted cleaned_start suffixes = Some potential_name ->
  exists suffix after_name,
    In suffix suffixes /\ accepted cleaned_start suffix potential_name after_name.
Proof.
  induction suffixes as [|suffix rest IH]; simpl; [discriminate|].
  destruct (try_suffix cleaned_start suffix) as [p|] eqn:E.
  - intros [= <-]. exists suffix. eexists. split; [now left|].
    apply try_suffix_accepted, E.
  - intros H. destruct (IH H) as (s & a & Hs & Ha). exists s, a. split; [now right | exact Ha].
Qed.

Lemma extract_valid_placename_accepted line potential_name :
  extract_valid_placename line = Some potential_name ->
  exists suffix after_name,
    In suffix PLACE_SUFFIXES /\
    accepted (clean_line_start line) suffix potential_name after_name.
Proof.
  unfold extract_valid_placename.
  destruct (is_empty (clean_line_start line)); [discriminate|].
  apply first_accepted_accepted.
Qed.

Lemma any_endswith_In name suffix suffixes :
  In suffix suffixes -> is_suffix suffix name -> any_endswith name suffixes = true.
Proof.
  intros Hin Hsuf. unfold any_endswith. apply existsb_exists.
  exists suffix. split; [exact Hin | now apply endswith_suffix].
Qed.

(** A detected name passes the standalone validator. *)
Lemma extract_valid_placename_valid line name :
  extract_valid_placename line = Some name -> is_valid_placename name = true.
Proof.
  intros H. destruct (extract_valid_placename_accepted _ _ H) as (suffix & after & Hin & Hacc).
  destruct Hacc as [_ Hlen Hstop _ _ Hsuf].
  unfold is_valid_placename.
  replace ((2 <=? len name) && (len name <=? 4)) with true
    by (symmetry; apply andb_true_iff; split; apply Z.leb_le; lia).
  cbn [negb]. rewrite Hstop.
  rewrite (any_endswith_In name suffix); [reflexivity | exact Hin |].
  apply Hsuf. exact (proj1 (Forall_forall _ _) PLACE_SUFFIXES_single _ Hin).
Qed.

Lemma extract_valid_placename_nonempty line name :
  extract_valid_placename line = Some name -> is_empty name = false.
Proof.
  intros H. destruct (extract_valid_placename_accepted _ _ H) as (suffix & after & _ & Hacc).
  destruct Hacc as [_ Hlen _ _ _ _]. destruct name; [|reflexivity].
  unfold len in Hlen. simpl in Hlen. lia.
Qed.

Lemma extract_valid_placename_substring line name :
  extract_valid_placename line = Some name -> is_substring name line.
Proof.
  intros H. destruct (extract_valid_placename_accepted _ _ H) as (suffix & after & _ & Hacc).
  eapply prefix_substring; [|apply clean_line_start_substring].
  exists after. apply (acc_split _ _ _ _ Hacc).
Qed.

(** ** The dictionary *)

Lemma dict_has_In k d : dict_has k d = true <-> In k (map fst d).
Proof.
  unfold dict_has. rewrite existsb_exists, in_map_iff. split.
  - intros (e & He & Hk). apply key_eqb_eq in Hk. now exists e.
  - intros (e & Hk & He). exists e. split; [exact He|]. apply key_eqb_eq. now symmetry.
Qed.

Lemma dict_has_cons k k' v d :
  dict_has k ((k', v) :: d) = key_eqb k k' || dict_has k d.
Proof. reflexivity. Qed.

Lemma dict_set_new k v d : dict_has k d = false -> dict_set k v d = d ++ [(k, v)].
Proof.
  induction d as [|[k' v'] d IH]; [reflexivity|].
  rewrite dict_has_cons. simpl. destruct (key_eqb k k'); simpl; [discriminate|].
  intros H. now rewrite IH.
Qed.

Lemma dict_get_has k d : dict_has k d = false <-> dict_get k d = None.
Proof.
  induction d as [|[k' v] d IH]; [easy|].
  rewrite dict_has_cons. simpl. destruct (key_eqb k k'); simpl; [easy | exact IH].
Qed.

(** [d[k].append(x)] on a key that is present: the keys keep their order,
    the bucket of [k] grows by [x] at its end and no other bucket moves. *)
Lemma dict_append_present k x d :
  dict_has k d = true ->
  exists d',
    dict_append k x d = Some d' /\
    map fst d' = map fst d /\
    dict_get k d' = option_map (fun v => v ++ [x]) (dict_get k d) /\
    (forall k', k' <> k -> dict_get k' d' = dict_get k' d) /\
    (forall P : key * list str -> Prop,
        (forall v, P (k, v) -> P (k, v ++ [x])) -> Forall P d -> Forall P d').
Proof.
  induction d as [|[k0 v0] d IH]; [discriminate|].
  rewrite dict_has_cons. simpl. destruct (key_eqb k k0) eqn:E; simpl.
  - intros _. apply key_eqb_eq in E. subst k0.
    eexists. split; [reflexivity|]. simpl. rewrite key_eqb_refl.
    repeat split; try reflexivity.
    + intros k' Hk'. apply key_eqb_neq in Hk'. now rewrite Hk'.
    + intros P HP Hd. inversion Hd; subst. constructor; auto.
  - intros H. destruct (IH H) as (d' & -> & Hkeys & Hget & Hother & HP).
    eexists. split; [reflexivity|]. simpl. rewrite E, Hkeys.
    repeat split; try reflexivity; try assumption.
    + intros k' Hk'. destruct (key_eqb k' k0); [reflexivity | now apply Hother].
    + intros P HP' Hd. inversion Hd; subst. constructor; auto.
Qed.

(** ** [dict.fromkeys] *)

Lemma str_mem_In x l : str_mem x l = true <-> In x l.
Proof.
  unfold str_mem. rewrite existsb_exists. split.
  - intros (y & Hy & E). apply str_eqb_eq in E. now subst.
  - intros H. exists x. split; [exact H | apply str_eqb_refl].
Qed.

Lemma str_mem_not_In x l : str_mem x l = false <-> ~ In x l.
Proof.
  rewrite <- str_mem_In. destruct (str_mem x l); split; congruence.
Qed.

Lemma fromkeys_aux_In seen l x :
  In x (fromkeys_aux seen l) <-> In x l /\ ~ In x seen.
Proof.
  revert seen. induction l as [|y l IH]; intros seen; simpl; [tauto|].
  fold (str_mem y seen). destruct (str_mem y seen) eqn:E.
  - apply str_mem_In in E. rewrite IH. split.
    + intros [H1 H2]. tauto.
    + intros [[->|H1] H2]; tauto.
  - apply str_mem_not_In in E. simpl. rewrite IH. simpl. split.
    + intros [->|[H1 H2]]; [tauto|]. split; [tauto|]. intros H. apply H2. now right.
    + intros [[->|H1] H2]; [now left|].
      destruct (list_eq_dec Z.eq_dec y x) as [->|Hne]; [now left|].
      right. split; [exact H1|]. intros [H|H]; [now apply Hne | now apply H2].
Qed.

Lemma fromkeys_aux_NoDup seen l : NoDup (fromkeys_aux seen l).
Proof.
  revert seen. induction l as [|y l IH]; intros seen; simpl; [constructor|].
  fold (str_mem y seen). destruct (str_mem y seen); [apply IH|].
  constructor; [|apply IH]. rewrite fromkeys_aux_In. intros [_ H]. apply H. now left.
Qed.

(** A key that is already present keeps its place; a new one goes last. *)
Lemma fromkeys_aux_snoc seen l x :
  fromkeys_aux seen (l ++ [x]) =
  if str_mem x (seen ++ l) then fromkeys_aux seen l else fromkeys_aux seen l ++ [x].
Proof.
  revert seen. induction l as [|y l IH]; intros seen; simpl.
  - rewrite app_nil_r. fold (str_mem x seen). now destruct (str_mem x seen).
  - fold (str_mem y seen). destruct (str_mem y seen) eqn:E.
    + rewrite IH.
      assert (Hm : str_mem x (seen ++ l) = str_mem x (seen ++ y :: l)).
      { apply eq_true_iff_eq. rewrite !str_mem_In, !in_app_iff. simpl.
        apply str_mem_In in E. split; [tauto|]. intros [H|[->|H]]; tauto. }
      now rewrite Hm.
    + rewrite IH.
      assert (Hm : str_mem x ((y :: seen) ++ l) = str_mem x (seen ++ y :: l)).
      { apply eq_true_iff_eq. rewrite !str_mem_In, !in_app_iff. simpl. tauto. }
      rewrite Hm. now destruct (str_mem x (seen ++ y :: l)).
Qed.

Lemma dict_fromkeys_snoc l x :
  dict_fromkeys (l ++ [x]) =
  if str_mem x l then dict_fromkeys l else dict_fromkeys l ++ [x].
Proof. apply (fromkeys_aux_snoc [] l x). Qed.

Lemma dict_fromkeys_In l x : In x (dict_fromkeys l) <-> In x l.
Proof. unfold dict_fromkeys. rewrite fromkeys_aux_In. simpl. tauto. Qed.

Lemma dict_fromkeys_NoDup l : NoDup (dict_fromkeys l).
Proof. apply fromkeys_aux_NoDup. Qed.

(** ** The invariant of the aggregation *)

Lemma is_empty_false s : is_empty s = false <-> s <> [].
Proof. destruct s; simpl; split; congruence. Qed.

Lemma residual_ok s i :
  is_empty (lstrip_chars CONTENT_SEPARATORS (slice_from s i)) = false ->
  contribution_ok (lstrip_chars CONTENT_SEPARATORS (slice_from s i)).
Proof.
  intros H. destruct (lstrip_chars CONTENT_SEPARATORS (slice_from s i)) as [|c t] eqn:E;
    [discriminate|].
  apply dropwhile_head in E.
  assert (Hsep : begins_with_separator (c :: t) = false) by exact E.
  repeat split; [discriminate | | now left].
  simpl. destruct (Z.eqb_spec c 32) as [->|]; [discriminate E | reflexivity].
Qed.

Lemma continuation_ok raw :
  is_empty (strip raw) = false ->
  truthy (extract_valid_placename (strip raw)) = None ->
  contribution_ok (strip raw).
Proof.
  intros Hne Hnone.
  assert (Hex : extract_valid_placename (strip raw) = None).
  { destruct (extract_valid_placename (strip raw)) as [name|] eqn:E; [|reflexivity].
    unfold truthy in Hnone. rewrite (extract_valid_placename_nonempty _ _ E) in Hnone.
    discriminate Hnone. }
  split; [now apply is_empty_false|].
  split; [|right; split; [now exists raw | exact Hex]].
  clear Hnone Hex.
  destruct (strip raw) as [|c t] eqn:E; [discriminate Hne|].
  cbn. destruct (Z.eqb_spec c 32) as [->|]; [|reflexivity].
  apply strip_head in E. discriminate E.
Qed.

Lemma buckets_ok_new name fname d :
  buckets_ok d -> detected name -> dict_has (name, fname) d = false ->
  buckets_ok (dict_set (name, fname) [] d).
Proof.
  intros [Hall Hnd] Hdet Hnew. rewrite (dict_set_new _ _ _ Hnew). split.
  - apply Forall_app. split; [exact Hall|]. repeat constructor. exact Hdet.
  - rewrite map_app. simpl. apply NoDup_app.
    + exact Hnd.
    + repeat constructor. intros [].
    + intros k Hk [<-|[]]. apply dict_has_In in Hk. congruence.
Qed.

Lemma buckets_ok_append k x d :
  buckets_ok d -> dict_has k d = true -> contribution_ok x ->
  exists d', dict_append k x d = Some d' /\ buckets_ok d' /\ map fst d' = map fst d.
Proof.
  intros [Hall Hnd] Hhas Hx.
  destruct (dict_append_present k x d Hhas) as (d' & Hd' & Hkeys & _ & _ & HP).
  exists d'. repeat split; [exact Hd' | | now rewrite Hkeys | exact Hkeys].
  apply (HP bucket_ok); [|exact Hall].
  intros v [Hdet Hv]. split; [exact Hdet|]. simpl in *.
  apply Forall_app. split; [exact Hv | constructor; [exact Hx | constructor]].
Qed.

Lemma dict_has_keys k d d' : map fst d' = map fst d -> dict_has k d' = dict_has k d.
Proof.
  intros H. apply eq_true_iff_eq. now rewrite !dict_has_In, H.
Qed.

Lemma dict_has_set k v d : dict_has k (dict_set k v d) = true.
Proof.
  induction d as [|[k0 v0] d IH]; simpl.
  - unfold dict_has. simpl. now rewrite key_eqb_refl.
  - destruct (key_eqb k k0) eqn:E; rewrite dict_has_cons, E; [reflexivity | exact IH].
Qed.

Lemma process_line_ok fname st raw :
  state_ok fname st ->
  exists st', process_line fname st raw = Some st' /\ state_ok fname st'.
Proof.
  destruct st as [d last_place]. intros [Hd Hlast]. simpl in Hd, Hlast.
  unfold process_line.
  destruct (is_empty (strip raw)) eqn:Hline.
  { eexists. split; [reflexivity|]. split; assumption. }
  destruct (truthy (extract_valid_placename (strip raw))) as [name|] eqn:Htruthy.
  - assert (Hex : extract_valid_placename (strip raw) = Some name).
    { destruct (extract_valid_placename (strip raw)) as [n|]; [|discriminate Htruthy].
      unfold truthy in Htruthy.
      destruct (is_empty n); [discriminate Htruthy | exact Htruthy]. }
    rewrite Hex in Htruthy |- *.
    set (content := lstrip_chars CONTENT_SEPARATORS
                      (slice_from (strip raw) (find (strip raw) name + len name))).
    set (d1 := if negb (dict_has (name, fname) d)
               then dict_set (name, fname) [] d else d).
    assert (Hd1 : buckets_ok d1 /\ dict_has (name, fname) d1 = true).
    { unfold d1. destruct (dict_has (name, fname) d) eqn:Hhas; simpl.
      - split; [exact Hd | exact Hhas].
      - split; [|apply dict_has_set].
        apply buckets_ok_new; [exact Hd | now exists (strip raw) | exact Hhas]. }
    destruct Hd1 as [Hok1 Hhas1].
    destruct (is_empty content) eqn:Hcontent; simpl.
    + eexists. split; [reflexivity|]. split; [exact Hok1|].
      cbn [fst snd]. rewrite Htruthy. now intros place [= <-].
    + destruct (buckets_ok_append (name, fname) content d1 Hok1 Hhas1)
        as (d2 & -> & Hok2 & Hkeys).
      { apply residual_ok. exact Hcontent. }
      eexists. split; [reflexivity|]. split; [exact Hok2|].
      cbn [fst snd]. rewrite Htruthy. intros place [= <-].
      now rewrite (dict_has_keys _ _ _ Hkeys).
  - destruct (truthy last_place) as [place|] eqn:Hplace.
    + destruct (buckets_ok_append (place, fname) (strip raw) d Hd (Hlast _ eq_refl))
        as (d2 & -> & Hok2 & Hkeys).
      { apply continuation_ok; assumption. }
      eexists. split; [reflexivity|]. split; [exact Hok2|].
      cbn [fst snd]. rewrite Hplace. intros p [= <-].
      rewrite (dict_has_keys _ _ _ Hkeys). now apply Hlast.
    + eexists. split; [reflexivity|]. split; [exact Hd|].
      cbn [fst snd]. rewrite Hplace. discriminate.
Qed.

Lemma process_lines_ok fname lines :
  forall st, state_ok fname st ->
  exists st', process_lines fname st lines = Some st' /\ state_ok fname st'.
Proof.
  induction lines as [|raw lines IH]; intros st Hst; simpl.
  - now exists st.
  - destruct (process_line_ok fname st raw Hst) as (st1 & -> & Hst1).
    now apply IH.
Qed.

Lemma aggregate_from_ok files :
  forall d, buckets_ok d ->
  exists d', aggregate_from d files = Some d' /\ buckets_ok d'.
Proof.
  induction files as [|[fname lines] files IH]; intros d Hd; simpl.
  - now exists d.
  - destruct (process_lines_ok fname lines (d, None)) as (st & -> & Hst).
    + split; [exact Hd | discriminate].
    + apply IH. apply Hst.
Qed.

(** The scan never raises, and leaves well-formed buckets. *)
Lemma aggregate_ok files :
  exists d, aggregate files = Some d /\ buckets_ok d.
Proof. apply aggregate_from_ok. split; constructor. Qed.

(** ** From buckets to records *)

Lemma make_records_In d r :
  In r (make_records d) ->
  exists texts, In (record_key r, texts) d /\ text r = combined_text texts /\
                is_empty (text r) = false.
Proof.
  induction d as [|[[name src] texts] d IH]; simpl; [intros []|].
  destruct (is_empty (combined_text texts)) eqn:E; simpl.
  - intros H. destruct (IH H) as (t & Ht & Htext). exists t. split; [now right | exact Htext].
  - intros [<-|H].
    + exists texts. repeat split; [now left | exact E].
    + destruct (IH H) as (t & Ht & Htext). exists t. split; [now right | exact Htext].
Qed.

Lemma make_records_keys_incl d k :
  In k (map record_key (make_records d)) -> In k (map fst d).
Proof.
  rewrite !in_map_iff. intros (r & <- & Hr).
  destruct (make_records_In d r Hr) as (texts & Hin & _).
  exists (record_key r, texts). split; [reflexivity | exact Hin].
Qed.

Lemma make_records_NoDup d :
  NoDup (map fst d) -> NoDup (map record_key (make_records d)).
Proof.
  induction d as [|[[name src] texts] d IH]; simpl; [constructor|].
  intros Hnd. inversion Hnd as [|? ? Hnotin Hrest]; subst.
  destruct (is_empty (combined_text texts)); simpl; [now apply IH|].
  constructor; [|now apply IH].
  intros H. apply Hnotin. apply make_records_keys_incl. exact H.
Qed.

(** ** The candidates of re-resolution *)

Lemma match_alternation_some alternatives s a :
  match_alternation alternatives s = Some a -> In a alternatives /\ is_prefix a s.
Proof.
  induction alternatives as [|x rest IH]; simpl; [discriminate|].
  destruct (startswith s x) eqn:E.
  - intros [= <-]. split; [now left | now apply startswith_prefix].
  - intros H. destruct (IH H) as [H1 H2]. split; [now right | exact H2].
Qed.

Lemma re_match_candidate_some s m :
  re_match_candidate s = Some m -> candidate_shape m /\ is_prefix m s.
Proof.
  unfold re_match_candidate. destruct s as [|c1 rest1]; [discriminate|].
  destruct (is_ideograph c1) eqn:H1; [|discriminate].
  assert (Hone : option_map (cons c1) (match_alternation PLACE_SUFFIXES rest1) = Some m ->
                 candidate_shape m /\ is_prefix m (c1 :: rest1)).
  { destruct (match_alternation PLACE_SUFFIXES rest1) as [a|] eqn:E; [|discriminate].
    intros [= <-]. destruct (match_alternation_some _ _ _ E) as [Hin [t ->]]. split.
    - exists [c1], a. repeat split; [now left | now constructor | exact Hin].
    - now exists t. }
  destruct rest1 as [|c2 rest2]; [exact Hone|].
  destruct (is_ideograph c2) eqn:H2; [|exact Hone].
  destruct (match_alternation PLACE_SUFFIXES rest2) as [a|] eqn:E; [|exact Hone].
  intros [= <-]. destruct (match_alternation_some _ _ _ E) as [Hin [t ->]]. split.
  - exists [c1; c2], a. repeat split; [now right | now repeat constructor | exact Hin].
  - now exists t.
Qed.

Lemma findall_from_skip k s : findall_from k s = findall_from 0 (skipn k s).
Proof.
  revert k. induction s as [|c s IH]; intros [|k]; try reflexivity.
  simpl skipn. rewrite <- IH. reflexivity.
Qed.

Lemma findall_cons c s :
  findall (c :: s) =
  match re_match_candidate (c :: s) with
  | Some m => m :: findall (skipn (length m) (c :: s))
  | None => findall s
  end.
Proof.
  unfold findall. cbn [findall_from].
  destruct (re_match_candidate (c :: s)) as [m|] eqn:E; [|reflexivity].
  rewrite findall_from_skip. destruct (re_match_candidate_some _ _ E) as [Hshape _].
  destruct Hshape as (i & x & Hm & Hlen & _ & _).
  assert (Hpos : (1 <= length m)%nat) by (rewrite Hm, length_app; lia).
  set (k := (length m - 1)%nat).
  replace (length m) with (S k) by (subst k; lia). reflexivity.
Qed.

Lemma scanned_skip c ms s :
  re_match_candidate (c :: s) = None -> scanned ms s -> scanned ms (c :: s).
Proof.
  intros Hc H. inversion H as [s0 Hnone|gap m ms0 rest Hgap Hm Hrest]; subst.
  - constructor. intros [|x g1] g2 Hs.
    + simpl in Hs. now subst g2.
    + injection Hs as _ Hs. now apply (Hnone g1).
  - apply (scanned_cons (c :: gap) m ms0 rest); [|exact Hm | exact Hrest].
    intros [|x g1] g2 Hs Hne.
    + simpl in Hs. subst g2. exact Hc.
    + injection Hs as _ Hs. now apply (Hgap g1).
Qed.

Lemma findall_scanned s : scanned (findall s) s.
Proof.
  remember (length s) as n eqn:Hn. revert s Hn.
  induction n as [n IH] using lt_wf_ind. intros [|c s] Hn.
  - constructor. intros g1 g2 Hs. symmetry in Hs. apply app_eq_nil in Hs.
    destruct Hs as [_ ->]. reflexivity.
  - rewrite findall_cons. destruct (re_match_candidate (c :: s)) as [m|] eqn:E.
    + destruct (re_match_candidate_some _ _ E) as [Hshape [t Ht]].
      rewrite Ht in E |- *. rewrite skipn_app, skipn_all, Nat.sub_diag.
      simpl app at 1. simpl skipn.
      apply (scanned_cons [] m); [| exact E |].
      * intros g1 g2 Hs Hne. symmetry in Hs. apply app_eq_nil in Hs.
        destruct Hs as [_ ->]. now contradiction Hne.
      * apply (IH (length t)); [|reflexivity].
        subst n. rewrite Ht, length_app.
        destruct Hshape as (i & x & -> & Hlen & _ & _). rewrite length_app. lia.
    + apply scanned_skip; [exact E|].
      apply (IH (length s)); [subst; simpl; lia | reflexivity].
Qed.

Lemma findall_shape s : Forall candidate_shape (findall s).
Proof.
  remember (length s) as n eqn:Hn. revert s Hn.
  induction n as [n IH] using lt_wf_ind. intros [|c s] Hn.
  - constructor.
  - rewrite findall_cons. destruct (re_match_candidate (c :: s)) as [m|] eqn:E.
    + destruct (re_match_candidate_some _ _ E) as [Hshape [t Ht]].
      constructor; [exact Hshape|].
      apply (IH (length (skipn (length m) (c :: s)))); [|reflexivity].
      subst n. rewrite length_skipn.
      destruct Hshape as (i & x & -> & Hlen & _ & _). rewrite length_app.
      cbn [length]. lia.
    + apply (IH (length s)); [subst; simpl; lia | reflexivity].
Qed.

Lemma scanned_substring ms s m : scanned ms s -> In m ms -> is_substring m s.
Proof.
  induction 1 as [s|gap m0 ms rest Hgap Hm Hrest IH]; [intros []|].
  intros [<-|Hin].
  - now exists gap, rest.
  - destruct (IH Hin) as (a & b & ->). exists (gap ++ m0 ++ a), b.
    now rewrite <- !app_assoc.
Qed.

(** ** Re-resolution *)

(** The first valid element of a list heads its filter. *)
Lemma filter_head (f : str -> bool) l first rest :
  filter f l = first :: rest ->
  exists before after,
    l = before ++ first :: after /\ Forall (fun m => f m = false) before /\ f first = true.
Proof.
  induction l as [|x l IH]; simpl; [discriminate|].
  destruct (f x) eqn:E.
  - intros [= <- <-]. exists [], l. repeat split; [constructor | exact E].
  - intros H. destruct (IH H) as (b & a & -> & Hb & Hf).
    exists (x :: b), a. repeat split; [now constructor | exact Hf].
Qed.

Lemma validate_and_resolve_replace record first rest :
  filter is_valid_placename (findall (text record)) = first :: rest ->
  negb (str_mem (placename record) (first :: rest))
    || negb (is_valid_placename (placename record)) = true ->
  validate_and_resolve record = Some (set_placename record first).
Proof.
  intros Hf Hc. unfold validate_and_resolve. rewrite Hf, Hc.
  cbn [set_placename placename].
  destruct (filter_head _ _ _ _ Hf) as (_ & _ & _ & _ & ->). reflexivity.
Qed.

Lemma validate_and_resolve_keep record :
  (filter is_valid_placename (findall (text record)) = [] \/
   negb (str_mem (placename record) (filter is_valid_placename (findall (text record))))
     || negb (is_valid_placename (placename record)) = false) ->
  validate_and_resolve record =
  if is_valid_placename (placename record) then Some record else None.
Proof.
  unfold validate_and_resolve. intros [->| Hc].
  - now destruct (is_valid_placename (placename record)).
  - rewrite Hc. destruct (filter is_valid_placename (findall (text record)));
      now destruct (is_valid_placename (placename record)).
Qed.

Lemma validate_and_resolve_some record record' :
  validate_and_resolve record = Some record' ->
  is_valid_placename (placename record') = true /\
  text record' = text record /\ source record' = source record.
Proof.
  unfold validate_and_resolve.
  destruct (filter is_valid_placename (findall (text record))) as [|first rest].
  - destruct (is_valid_placename (placename record)) eqn:E; [|discriminate].
    intros [= <-]. auto.
  - destruct (negb (str_mem (placename record) (first :: rest))
              || negb (is_valid_placename (placename record))).
    + destruct (is_valid_placename (placename (set_placename record first))) eqn:E;
        [|discriminate].
      intros [= <-]. auto.
    + destruct (is_valid_placename (placename record)) eqn:E; [|discriminate].
      intros [= <-]. auto.
Qed.

(** * The claims *)

(** C1: every record [extract_from_directory] emits carries a name on which
    [is_valid_placename] holds, whatever the documents are; the pass always
    returns its list, and no record has an empty or invalid name. *)
Theorem extract_from_directory_names_valid (files : list document) :
  exists records,
    extract_from_directory files = Some records /\
    Forall (fun r => is_valid_placename (placename r) = true /\ placename r <> [])
           records.
Proof.
  destruct (aggregate_ok files) as (d & Hd & Hall & _).
  exists (make_records d). unfold extract_from_directory. rewrite Hd.
  split; [reflexivity|]. apply Forall_forall. intros r Hr.
  destruct (make_records_In d r Hr) as (texts & Hin & _).
  destruct (proj1 (Forall_forall _ _) Hall _ Hin) as [[line Hline] _].
  cbn [fst record_key] in Hline. split.
  - exact (extract_valid_placename_valid _ _ Hline).
  - apply is_empty_false. exact (extract_valid_placename_nonempty _ _ Hline).
Qed.

(** C2, as the claim has it, fails on the file 1.txt with the lines
    江陵縣屬南郡 and ，又東: the pass emits the record under 江陵縣, while
    re-resolution of that record renames it to 屬南郡. *)
Lemma extract_from_directory_not_resolved :
  extract_from_directory two_line_files <>
  option_map (fun d => resolve_all (make_records d)) (aggregate two_line_files).
Proof. vm_compute. discriminate. Qed.

(** C2, amended: the pass emits exactly one record for each bucket whose
    joined text is not empty, in the order of the buckets and under the
    name the bucket was opened with; [validate_and_resolve] is not applied.
    Applied to an emitted record it would never discard it: it returns a
    record with a valid name and the same text and source. *)
Theorem extract_from_directory_emits_buckets (files : list document) :
  exists d,
    aggregate files = Some d /\
    extract_from_directory files = Some (make_records d) /\
    (forall name src txt,
        In (mkRecord name txt src) (make_records d) <->
        exists texts, In ((name, src), texts) d /\ txt = combined_text texts /\ txt <> []) /\
    Forall (fun r => exists r',
                validate_and_resolve r = Some r' /\
                is_valid_placename (placename r') = true /\
                text r' = text r /\ source r' = source r)
           (make_records d).
Proof.
  destruct (aggregate_ok files) as (d & Hd & Hall & Hnd).
  exists d. unfold extract_from_directory. rewrite Hd.
  split; [reflexivity|]. split; [reflexivity|]. split.
  - intros name src txt. split.
    + intros Hr. destruct (make_records_In d _ Hr) as (texts & Hin & Htxt & Hne).
      exists texts. repeat split; [exact Hin | exact Htxt | now apply is_empty_false].
    + intros (texts & Hin & -> & Hne). apply is_empty_false in Hne.
      clear Hd Hall Hnd. induction d as [|[[n0 s0] t0] d IH]; [destruct Hin|].
      cbn [make_records]. destruct Hin as [[= -> -> ->]|Hin].
      * rewrite Hne. now left.
      * destruct (negb (is_empty (combined_text t0))); [right|]; now apply IH.
  - apply Forall_forall. intros r Hr.
    destruct (make_records_In d r Hr) as (texts & Hin & _).
    destruct (proj1 (Forall_forall _ _) Hall _ Hin) as [[line Hline] _].
    cbn [fst record_key] in Hline.
    pose proof (extract_valid_placename_valid _ _ Hline) as Hvalid.
    destruct (validate_and_resolve r) as [r'|] eqn:E.
    + exists r'. split; [reflexivity|]. now apply validate_and_resolve_some.
    + exfalso. unfold validate_and_resolve in E.
      destruct (filter is_valid_placename (findall (text r))) as [|first rest] eqn:Hf.
      * rewrite Hvalid in E. discriminate E.
      * rewrite Hvalid in E. cbn [negb] in E. rewrite orb_false_r in E.
        destruct (filter_head _ _ _ _ Hf) as (_ & _ & _ & _ & Hfirst).
        destruct (negb (str_mem (placename r) (first :: rest))).
        -- cbn [set_placename placename] in E. rewrite Hfirst in E. discriminate E.
        -- rewrite Hvalid in E. discriminate E.
Qed.

(** C3, as the claim has it, fails on the file 1.txt with the lines
    江陵縣屬南郡 and ，又東: the second line continues the open record and is
    stored whole, so the bucket holds a contribution that begins with ，. *)
Lemma continuation_keeps_leading_separator :
  exists d,
    aggregate two_line_files = Some d /\
    ~ Forall (fun c => c <> [] /\ begins_with_separator c = false)
             (stored_contributions d).
Proof.
  eexists. split; [vm_compute; reflexivity|].
  intros H. inversion H as [|c1 l1 _ H1]; subst.
  inversion H1 as [|c2 l2 [_ H2] _]; subst.
  vm_compute in H2. discriminate H2.
Qed.

(** C3, amended: the scan never fails, and every contribution it stores is
    non-empty and does not begin with a space; the text kept after a
    detected name begins with none of ， 。 ； and space, while a continuation
    line is stored whole after white-space stripping (it is a stripped line
    on which no name was detected) and may begin with ， 。 or ；. *)
Theorem stored_contributions_ok (files : list document) :
  exists d,
    aggregate files = Some d /\
    Forall (fun c =>
              c <> [] /\ startswith c SPACE = false /\
              (begins_with_separator c = false \/
               ((exists raw, c = strip raw) /\ extract_valid_placename c = None)))
           (stored_contributions d).
Proof.
  destruct (aggregate_ok files) as (d & Hd & Hall & _).
  exists d. split; [exact Hd|]. clear Hd.
  unfold stored_contributions. induction Hall as [|[k texts] d [_ Hk] _ IH]; simpl.
  - constructor.
  - apply Forall_app. split; [exact Hk | exact IH].
Qed.



(** C6: re-resolution is idempotent: a record [validate_and_resolve] returns
    is returned unchanged when it goes through [validate_and_resolve]
    again. *)
Theorem validate_and_resolve_twice (record record' : PlaceNameRecord) :
  validate_and_resolve record = Some record' ->
  validate_and_resolve record' = Some record'.
Proof.
  intros H.
  destruct (filter is_valid_placename (findall (text record))) as [|first rest] eqn:Hf.
  - rewrite validate_and_resolve_keep in H by now left.
    destruct (is_valid_placename (placename record)) eqn:E; [|discriminate H].
    injection H as <-. rewrite validate_and_resolve_keep by now left.
    now rewrite E.
  - destruct (negb (str_mem (placename record) (first :: rest))
              || negb (is_valid_placename (placename record))) eqn:Hc.
    + rewrite (validate_and_resolve_replace _ _ _ Hf Hc) in H. injection H as <-.
      destruct (filter_head _ _ _ _ Hf) as (_ & _ & _ & _ & Hvalid).
      rewrite validate_and_resolve_keep.
      * cbn [set_placename placename]. now rewrite Hvalid.
      * right. cbn [set_placename placename text]. rewrite Hf, Hvalid.
        unfold str_mem. cbn [existsb]. now rewrite str_eqb_refl.
    + assert (Hk : validate_and_resolve record =
                   if is_valid_placename (placename record) then Some record else None).
      { apply validate_and_resolve_keep. right. now rewrite Hf. }
      rewrite Hk in H.
      destruct (is_valid_placename (placename record)); [|discriminate H].
      injection H as <-. now rewrite Hk.
Qed.

Lemma validate_and_resolve_twice_witness :
  validate_and_resolve (mkRecord jiangling shu_nan_jun file_1) =
    Some (mkRecord shu_nan_jun shu_nan_jun file_1) /\
  validate_and_resolve (mkRecord shu_nan_jun shu_nan_jun file_1) =
    Some (mkRecord shu_nan_jun shu_nan_jun file_1).
Proof.
  split; [vm_compute; reflexivity|].
  apply (validate_and_resolve_twice (mkRecord jiangling shu_nan_jun file_1)).
  vm_compute. reflexivity.
Defined.

(** C7: on 漢置江陵縣屬南郡 the dynasty 漢 and then the verb 置 are stripped,
    [clean_line_start] returns 江陵縣屬南郡 and [extract_valid_placename]
    returns 江陵縣: the suffix 縣 is found at index 2, the candidate has
    length 3 and starts with no stop word, and 屬, which follows it, is no
    direction word. *)
Theorem scenario_a :
  strip_token scenario_a_line [28450] = 32622 :: jiangling_line /\
  strip_token (32622 :: jiangling_line) [32622] = jiangling_line /\
  clean_line_start scenario_a_line = jiangling_line /\
  extract_valid_placename scenario_a_line = Some jiangling /\
  find jiangling_line [32291] = 2 /\
  len jiangling = 3 /\
  any_startswith jiangling STOP_START_WORDS = false /\
  slice_from jiangling_line 3 = shu_nan_jun /\
  any_startswith shu_nan_jun DIRECTION_WORDS = false.
Proof. vm_compute. repeat split; reflexivity. Qed.

(** C8: a candidate [extract_valid_placename] returns heads the cleaned
    line, has 2 or 3 characters, starts with no stop word, and what follows
    it, when not empty, starts with a separator or does not start with a
    direction word; a candidate followed by a direction word is never
    returned. *)
Theorem extract_valid_placename_rules (line name : str) :
  extract_valid_placename line = Some name ->
  exists after_name,
    clean_line_start line = name ++ after_name /\
    (len name = 2 \/ len name = 3) /\
    any_startswith name STOP_START_WORDS = false /\
    (after_name <> [] ->
     re_match_separator after_name = true \/
     any_startswith after_name DIRECTION_WORDS = false) /\
    any_startswith after_name DIRECTION_WORDS = false.
Proof.
  intros H. destruct (extract_valid_placename_accepted _ _ H) as (suffix & after & _ & Hacc).
  destruct Hacc as [Hsplit Hlen Hstop Hafter Hdir _].
  exists after. repeat split; [exact Hsplit | lia | exact Hstop | | exact Hdir].
  intros _. now right.
Qed.

Lemma extract_valid_placename_rules_witness :
  exists after_name,
    clean_line_start scenario_a_line = jiangling ++ after_name /\
    any_startswith after_name DIRECTION_WORDS = false.
Proof.
  destruct (extract_valid_placename_rules scenario_a_line jiangling)
    as (after & H1 & _ & _ & _ & H2).
  - vm_compute. reflexivity.
  - exists after. split; [exact H1 | exact H2].
Defined.

(** C9: [clean_line_start] returns on every string.  The loop is left with
    its counter [n] at most 10, having rewritten the stripped line [n] times;
    it is left below 10 only on a line the rewrite no longer changes, so the
    body runs at most 10 times.  At the cap the current line is returned as
    it is: on eleven 漢 before X ten are removed and 漢X comes back, although
    a further pass would still rewrite it. *)
Theorem clean_line_start_terminates :
  (forall line,
      exists n,
        (n <= max_iterations)%nat /\
        clean_loop (strip (re_sub_leading_number line)) 0 = (clean_line_start line, n) /\
        clean_line_start line =
          Nat.iter n rewrite_pass (strip (re_sub_leading_number line)) /\
        ((n < max_iterations)%nat ->
         rewrite_pass (clean_line_start line) = clean_line_start line)) /\
  clean_loop eleven_dynasties 0 = ([28450; 88], max_iterations) /\
  clean_line_start eleven_dynasties = [28450; 88] /\
  rewrite_pass [28450; 88] = [88].
Proof.
  split; [|vm_compute; repeat split; reflexivity].
  intros line. unfold clean_line_start, clean_loop.
  destruct (rewrite_loop_spec rewrite_pass max_iterations _
              (strip (re_sub_leading_number line)) 0%nat eq_refl)
    as (n & _ & Hcap & Heq & Hfix).
  rewrite Nat.sub_0_r in Heq, Hfix. exists n. rewrite Heq. cbn [fst].
  repeat split; [exact Hcap | exact Hfix].
Qed.

Lemma clean_line_start_terminates_witness :
  rewrite_pass (clean_line_start scenario_a_line) = clean_line_start scenario_a_line.
Proof.
  destruct clean_line_start_terminates as [H _].
  destruct (H scenario_a_line) as (n & _ & Hloop & _ & Hfix).
  apply Hfix. vm_compute in Hloop. injection Hloop as <-.
  unfold max_iterations. lia.
Defined.

(** C10: [clean_line_start] returns a suffix of the line as the first step
    leaves it (leading digits and outer white space removed), so a candidate
    [extract_valid_placename] returns on a line occurs in that line: [find]
    does not return -1, and the line splits at the index found into what
    precedes the name, the name, and the slice taken after it. *)
Theorem candidate_occurs_in_line (line : str) :
  is_suffix (clean_line_start line) (strip (re_sub_leading_number line)) /\
  forall name,
    extract_valid_placename line = Some name ->
    is_substring name line /\
    find line name <> -1 /\
    0 <= find line name /\ find line name + len name <= len line /\
    line = slice_to line (find line name) ++ name
           ++ slice_from line (find line name + len name).
Proof.
  split; [apply clean_line_start_suffix|].
  intros name H. pose proof (extract_valid_placename_substring _ _ H) as Hsub.
  pose proof (find_substring _ _ Hsub) as Hfind.
  destruct (find_occurrence _ _ Hfind) as (pre & post & Hline & Hpre).
  assert (Hlen : len line = len pre + len name + len post)
    by (rewrite Hline, !len_app; lia).
  assert (Hto : slice_to line (len pre) = pre)
    by (rewrite Hline; apply slice_to_app).
  assert (Hfrom : slice_from line (len pre + len name) = post)
    by (rewrite Hline, app_assoc, <- len_app; apply slice_from_app).
  split; [exact Hsub|]. split; [lia|]. split; [exact Hfind|]. split.
  - pose proof (len_nonneg post). lia.
  - rewrite <- Hpre, Hto, Hfrom. exact Hline.
Qed.

Lemma candidate_occurs_in_line_witness :
  find scenario_a_line jiangling <> -1 /\
  scenario_a_line =
    slice_to scenario_a_line (find scenario_a_line jiangling) ++ jiangling
    ++ slice_from scenario_a_line (find scenario_a_line jiangling + len jiangling).
Proof.
  destruct (candidate_occurs_in_line scenario_a_line) as [_ H].
  destruct (H jiangling) as (_ & H1 & _ & _ & H2).
  - vm_compute. reflexivity.
  - split; [exact H1 | exact H2].
Defined.

(** * Further properties of the extractor *)

(** ** Normal forms of [clean_line_start] *)

Lemma is_suffix_length t s : is_suffix t s -> (length t <= length s)%nat.
Proof. intros [pre ->]. rewrite length_app. lia. Qed.

Lemma is_suffix_same_length t s :
  is_suffix t s -> (length s <= length t)%nat -> t = s.
Proof.
  intros [pre ->]. rewrite length_app. intros H.
  destruct pre; [reflexivity | simpl in H; lia].
Qed.

Lemma strip_token_fixed line token :
  token <> [] -> strip_token line token = line -> startswith line token = false.
Proof.
  intros Hne Hfix. destruct (startswith line token) eqn:E; [|reflexivity].
  exfalso. unfold strip_token in Hfix. rewrite E in Hfix.
  apply startswith_prefix in E. destruct E as [t Ht].
  rewrite Ht, slice_from_app in Hfix.
  pose proof (is_suffix_length _ _ (lstrip_chars_suffix CLEAN_SEPARATORS t)) as Hl.
  rewrite Hfix, length_app in Hl. destruct token; [now apply Hne | simpl in Hl; lia].
Qed.

Lemma re_match_admin_prefix admin line m :
  re_match_admin admin line = Some m -> m <> [] /\ is_prefix m line.
Proof.
  unfold re_match_admin. destruct line as [|c1 rest1]; [discriminate|].
  destruct (is_ideograph c1); [|discriminate].
  assert (Hone : (if startswith rest1 admin then Some (c1 :: admin) else None) = Some m ->
                 m <> [] /\ is_prefix m (c1 :: rest1)).
  { destruct (startswith rest1 admin) eqn:E; [|discriminate].
    intros [= <-]. split; [discriminate|].
    apply startswith_prefix in E. destruct E as [t ->]. now exists t. }
  destruct rest1 as [|c2 rest2]; [exact Hone|].
  destruct (is_ideograph c2 && startswith rest2 admin) eqn:E; [|exact Hone].
  intros [= <-]. split; [discriminate|].
  apply andb_true_iff in E. destruct E as [_ E].
  apply startswith_prefix in E. destruct E as [t ->]. now exists t.
Qed.

Lemma strip_admin_fixed line admin :
  strip_admin line admin = line -> re_match_admin admin line = None.
Proof.
  intros Hfix. unfold strip_admin in Hfix.
  destruct (re_match_admin admin line) as [m|] eqn:E; [|reflexivity].
  exfalso. destruct (re_match_admin_prefix _ _ _ E) as [Hne [t Ht]].
  rewrite Ht, slice_from_app in Hfix.
  pose proof (is_suffix_length _ _ (lstrip_chars_suffix CLEAN_SEPARATORS t)) as Hl.
  rewrite Hfix, length_app in Hl. destruct m; [now apply Hne | simpl in Hl; lia].
Qed.

Lemma fold_left_fixed (f : str -> str -> str) tokens :
  (forall line token, is_suffix (f line token) line) ->
  forall line, fold_left f tokens line = line ->
  forall token, In token tokens -> f line token = line.
Proof.
  intros Hf. induction tokens as [|t tokens IH]; intros line Hfix token Hin;
    [destruct Hin|].
  simpl in Hfix.
  assert (Ht : f line t = line).
  { apply is_suffix_same_length; [apply Hf|].
    pose proof (is_suffix_length _ _ (fold_left_suffix f tokens Hf (f line t))) as Hl.
    rewrite Hfix in Hl. exact Hl. }
  rewrite Ht in Hfix. destruct Hin as [<-|Hin]; [exact Ht | now apply IH].
Qed.

Lemma rewrite_pass_fixed line :
  rewrite_pass line = line ->
  fold_left strip_token DYNASTIES line = line /\
  fold_left strip_admin ADMIN_LEVELS line = line /\
  fold_left strip_token PREFIX_VERBS line = line.
Proof.
  unfold rewrite_pass. intros Hfix.
  set (l1 := fold_left strip_token DYNASTIES line) in *.
  set (l2 := fold_left strip_admin ADMIN_LEVELS l1) in *.
  assert (H1 : is_suffix l1 line) by apply fold_left_suffix, strip_token_suffix.
  assert (H2 : is_suffix l2 l1) by apply fold_left_suffix, strip_admin_suffix.
  assert (H3 : is_suffix (fold_left strip_token PREFIX_VERBS l2) l2)
    by apply fold_left_suffix, strip_token_suffix.
  rewrite Hfix in H3.
  pose proof (is_suffix_length _ _ H1). pose proof (is_suffix_length _ _ H2).
  pose proof (is_suffix_length _ _ H3).
  assert (E1 : l1 = line) by (apply is_suffix_same_length; [exact H1 | lia]).
  assert (E2 : l2 = l1) by (apply is_suffix_same_length; [exact H2 | lia]).
  clear H1 H2 H3. subst l2 l1. rewrite E1 in E2. rewrite E1, E2 in Hfix.
  split; [exact E1|]. split; [exact E2 | exact Hfix].
Qed.

Lemma no_token_starts line tokens :
  Forall (fun t => t <> []) tokens ->
  fold_left strip_token tokens line = line ->
  any_startswith line tokens = false.
Proof.
  intros Hne Hfix. unfold any_startswith.
  destruct (existsb (startswith line) tokens) eqn:E; [|reflexivity].
  apply existsb_exists in E. destruct E as (t & Hin & Ht).
  rewrite (strip_token_fixed line t) in Ht; [discriminate Ht | |].
  - exact (proj1 (Forall_forall _ _) Hne t Hin).
  - exact (fold_left_fixed strip_token tokens strip_token_suffix line Hfix t Hin).
Qed.

Lemma DYNASTIES_nonempty : Forall (fun t : str => t <> []) DYNASTIES.
Proof. repeat constructor; discriminate. Qed.

Lemma PREFIX_VERBS_nonempty : Forall (fun t : str => t <> []) PREFIX_VERBS.
Proof. repeat constructor; discriminate. Qed.

(** A line the rewrite pass leaves alone starts with no token of the three
    tables. *)
Lemma rewrite_pass_normal line :
  rewrite_pass line = line ->
  any_startswith line DYNASTIES = false /\
  any_startswith line PREFIX_VERBS = false /\
  Forall (fun admin => re_match_admin admin line = None) ADMIN_LEVELS.
Proof.
  intros Hfix. destruct (rewrite_pass_fixed line Hfix) as (H1 & H2 & H3).
  split; [exact (no_token_starts _ _ DYNASTIES_nonempty H1)|].
  split; [exact (no_token_starts _ _ PREFIX_VERBS_nonempty H3)|].
  apply Forall_forall. intros admin Hin. apply strip_admin_fixed.
  exact (fold_left_fixed strip_admin ADMIN_LEVELS strip_admin_suffix line H2 admin Hin).
Qed.

Lemma clean_loop_below_cap line :
  (snd (clean_loop (strip (re_sub_leading_number line)) 0) < max_iterations)%nat ->
  rewrite_pass (clean_line_start line) = clean_line_start line.
Proof.
  unfold clean_line_start, clean_loop.
  destruct (rewrite_loop_spec rewrite_pass max_iterations _
              (strip (re_sub_leading_number line)) 0%nat eq_refl)
    as (n & _ & _ & Heq & Hfix).
  rewrite Heq. cbn [fst snd]. exact Hfix.
Qed.

(** X1: when the loop of [clean_line_start] is left below its cap of ten
    counted iterations, the line returned is in normal form: it starts with
    no dynasty token and no verb prefix, and no administrative mention (one
    or two ideographs and an administrative-level token) matches at its
    head. *)
Theorem clean_line_start_normal_form (line : str) :
  (snd (clean_loop (strip (re_sub_leading_number line)) 0) < max_iterations)%nat ->
  any_startswith (clean_line_start line) DYNASTIES = false /\
  any_startswith (clean_line_start line) PREFIX_VERBS = false /\
  Forall (fun admin => re_match_admin admin (clean_line_start line) = None)
         ADMIN_LEVELS.
Proof. intros H. apply rewrite_pass_normal, clean_loop_below_cap, H. Qed.

Lemma clean_line_start_normal_form_witness :
  any_startswith (clean_line_start scenario_a_line) DYNASTIES = false.
Proof.
  apply (clean_line_start_normal_form scenario_a_line).
  vm_compute. lia.
Defined.

Lemma str_eqb_neq_aux a b : str_eqb a b = false -> a <> b.
Proof. intros H E. apply str_eqb_eq in E. congruence. Qed.

Lemma rewrite_loop_counter body cap :
  (forall line, is_suffix (body line) line) ->
  forall k line iteration,
    (cap - iteration = k)%nat ->
    (snd (rewrite_loop body cap line iteration) <= iteration + length line)%nat.
Proof.
  intros Hbody. induction k as [|k IH]; intros line iteration Hk;
    rewrite rewrite_loop_step; destruct (lt_dec iteration cap) as [Hlt|Hge];
    try lia; cbn [snd]; try lia.
  destruct (str_eqb line (body line)) eqn:E; [cbn [snd]; lia|].
  assert (Hshort : (length (body line) < length line)%nat).
  { pose proof (is_suffix_length _ _ (Hbody line)) as Hl.
    destruct (Nat.eq_dec (length (body line)) (length line)) as [Heq|]; [|lia].
    apply str_eqb_neq_aux in E. exfalso. apply E. symmetry.
    apply is_suffix_same_length; [apply Hbody | lia]. }
  specialize (IH (body line) (S iteration) ltac:(lia)). lia.
Qed.

(** X2: every counted iteration of the loop of [clean_line_start] removes
    at least one character, so the counter it leaves with is at most the
    length of the line after the first step; a line of fewer than ten
    characters is therefore always rewritten until no rule fires. *)
Theorem clean_loop_counter_bound (line : str) :
  (snd (clean_loop (strip (re_sub_leading_number line)) 0)
   <= length (strip (re_sub_leading_number line)))%nat /\
  ((length (strip (re_sub_leading_number line)) < max_iterations)%nat ->
   rewrite_pass (clean_line_start line) = clean_line_start line).
Proof.
  pose proof (rewrite_loop_counter rewrite_pass max_iterations rewrite_pass_suffix _
                (strip (re_sub_leading_number line)) 0%nat eq_refl) as H.
  fold clean_loop in H. split; [exact H|].
  intros Hshort. apply clean_loop_below_cap. lia.
Qed.

Lemma clean_loop_counter_bound_witness :
  rewrite_pass (clean_line_start scenario_a_line) = clean_line_start scenario_a_line.
Proof.
  apply (proj2 (clean_loop_counter_bound scenario_a_line)).
  vm_compute. lia.
Defined.

Lemma strip_last raw pre c : strip raw = pre ++ [c] -> is_space c = false.
Proof.
  unfold strip, rstrip. intros H.
  apply (f_equal (@rev char)) in H. rewrite rev_involutive, rev_app_distr in H.
  simpl in H. exact (dropwhile_head _ _ _ _ H).
Qed.

Lemma lstrip_chars_head chars s c t :
  lstrip_chars chars s = c :: t -> char_in c chars = false.
Proof. apply dropwhile_head. Qed.

Lemma untouched_or_stripped_trans a b c :
  untouched_or_stripped a b -> untouched_or_stripped b c -> untouched_or_stripped a c.
Proof.
  intros [->|H1] [->|H2]; [now left | now right | now right | now right].
Qed.

Lemma lstrip_chars_stripped before s :
  untouched_or_stripped before (lstrip_chars CLEAN_SEPARATORS s).
Proof.
  right. destruct (lstrip_chars CLEAN_SEPARATORS s) as [|c t] eqn:E; [exact I|].
  exact (lstrip_chars_head _ _ _ _ E).
Qed.

Lemma strip_token_stripped line token :
  untouched_or_stripped line (strip_token line token).
Proof.
  unfold strip_token. destruct (startswith line token);
    [apply lstrip_chars_stripped | now left].
Qed.

Lemma strip_admin_stripped line admin :
  untouched_or_stripped line (strip_admin line admin).
Proof.
  unfold strip_admin. destruct (re_match_admin admin line);
    [apply lstrip_chars_stripped | now left].
Qed.

Lemma fold_left_stripped (f : str -> str -> str) tokens :
  (forall line token, untouched_or_stripped line (f line token)) ->
  forall line, untouched_or_stripped line (fold_left f tokens line).
Proof.
  intros Hf. induction tokens as [|t tokens IH]; intros line; simpl; [now left|].
  eapply untouched_or_stripped_trans; [apply Hf | apply IH].
Qed.

Lemma rewrite_pass_stripped line : untouched_or_stripped line (rewrite_pass line).
Proof.
  unfold rewrite_pass.
  eapply untouched_or_stripped_trans; [apply fold_left_stripped, strip_token_stripped|].
  eapply untouched_or_stripped_trans; [apply fold_left_stripped, strip_admin_stripped|].
  apply fold_left_stripped, strip_token_stripped.
Qed.

Lemma clean_line_start_stripped line :
  untouched_or_stripped (strip (re_sub_leading_number line)) (clean_line_start line).
Proof.
  unfold clean_line_start, clean_loop.
  destruct (rewrite_loop_spec rewrite_pass max_iterations _
              (strip (re_sub_leading_number line)) 0%nat eq_refl)
    as (n & _ & _ & -> & _).
  cbn [fst]. induction (n - 0)%nat as [|m IH]; simpl; [now left|].
  eapply untouched_or_stripped_trans; [exact IH | apply rewrite_pass_stripped].
Qed.

(** X3: what [clean_line_start] returns is never longer than its argument,
    never begins with a space and never ends with white space. *)
Theorem clean_line_start_trimmed (line : str) :
  (length (clean_line_start line) <= length line)%nat /\
  startswith (clean_line_start line) SPACE = false /\
  forall pre c, clean_line_start line = pre ++ [c] -> is_space c = false.
Proof.
  split; [|split].
  - destruct (clean_line_start_substring line) as (a & b & H).
    rewrite H at 2. rewrite !length_app. lia.
  - destruct (clean_line_start_stripped line) as [H|H].
    + rewrite H. destruct (strip (re_sub_leading_number line)) as [|c t] eqn:E;
        [reflexivity|].
      apply strip_head in E. cbn. destruct (Z.eqb_spec c 32) as [->|]; [|reflexivity].
      discriminate E.
    + destruct (clean_line_start line) as [|c t]; [reflexivity|].
      cbn. destruct (Z.eqb_spec c 32) as [->|]; [|reflexivity]. discriminate H.
  - intros pre c H. destruct (clean_line_start_suffix line) as [p Hp].
    rewrite H, app_assoc in Hp. exact (strip_last _ _ _ Hp).
Qed.

Lemma clean_line_start_trimmed_witness : is_space 37089 = false.
Proof.
  destruct (clean_line_start_trimmed scenario_a_line) as (_ & _ & H).
  apply (H [27743; 38517; 32291; 23660; 21335]).
  vm_compute. reflexivity.
Defined.

(** ** What the locator can and cannot return *)

Lemma startswith_longer name s token :
  is_prefix name s -> startswith name token = true -> startswith s token = true.
Proof.
  intros [t ->] H. apply startswith_prefix in H. destruct H as [u ->].
  apply startswith_prefix. exists (u ++ t). now rewrite app_assoc.
Qed.

Lemma any_startswith_longer name s tokens :
  is_prefix name s -> any_startswith s tokens = false ->
  any_startswith name tokens = false.
Proof.
  intros Hp Hs. unfold any_startswith in *.
  destruct (existsb (startswith name) tokens) eqn:E; [|reflexivity].
  apply existsb_exists in E. destruct E as (t & Hin & Ht).
  rewrite <- Hs. symmetry. apply existsb_exists. exists t.
  split; [exact Hin | exact (startswith_longer _ _ _ Hp Ht)].
Qed.

(** X4: when the rewriting of the line ran to its end (the loop was left
    below its cap), a name [extract_valid_placename] returns starts with no
    dynasty token and with no verb prefix: such a head is always stripped
    before the name is located. *)
Theorem detected_name_head (line name : str) :
  (snd (clean_loop (strip (re_sub_leading_number line)) 0) < max_iterations)%nat ->
  extract_valid_placename line = Some name ->
  any_startswith name DYNASTIES = false /\
  any_startswith name PREFIX_VERBS = false.
Proof.
  intros Hcap Hex.
  destruct (clean_line_start_normal_form line Hcap) as (Hd & Hv & _).
  destruct (extract_valid_placename_accepted _ _ Hex) as (suffix & after & _ & Hacc).
  assert (Hp : is_prefix name (clean_line_start line))
    by (exists after; exact (acc_split _ _ _ _ Hacc)).
  split; eapply any_startswith_longer; eassumption.
Qed.

Lemma detected_name_head_witness :
  any_startswith jiangling DYNASTIES = false /\
  any_startswith jiangling PREFIX_VERBS = false.
Proof.
  apply (detected_name_head scenario_a_line jiangling).
  - vm_compute. lia.
  - vm_compute. reflexivity.
Defined.

Lemma re_match_admin_complete admin pre t :
  Forall (fun c => is_ideograph c = true) pre ->
  (length pre = 1 \/ length pre = 2)%nat ->
  re_match_admin admin (pre ++ admin ++ t) <> None.
Proof.
  intros Hideo Hlen.
  destruct pre as [|c1 [|c2 [|c3 pre]]]; simpl in Hlen; try lia.
  - inversion Hideo as [|? ? H1 _]; subst. cbn [app re_match_admin]. rewrite H1.
    rewrite startswith_app.
    destruct (admin ++ t) as [|c2 rest2]; [discriminate|].
    destruct (is_ideograph c2 && startswith rest2 admin); discriminate.
  - inversion Hideo as [|? ? H1 Hrest]; subst.
    inversion Hrest as [|? ? H2 _]; subst.
    cbn [app re_match_admin]. rewrite H1, H2, startswith_app. discriminate.
Qed.

Lemma ADMIN_LEVELS_single : Forall single_char ADMIN_LEVELS.
Proof. repeat constructor; eexists; reflexivity. Qed.

(** X5: when the rewriting of the line ran to its end, a returned name that
    consists of ideographs never ends with an administrative-level token
    (郡 州 府 道 路), although 州 郡 府 道 are in the suffix table: one or two
    ideographs before such a token at the head of the line are stripped as
    an administrative mention. *)
Theorem detected_name_not_admin (line name : str) :
  (snd (clean_loop (strip (re_sub_leading_number line)) 0) < max_iterations)%nat ->
  extract_valid_placename line = Some name ->
  Forall (fun c => is_ideograph c = true) name ->
  any_endswith name ADMIN_LEVELS = false.
Proof.
  intros Hcap Hex Hideo.
  destruct (clean_line_start_normal_form line Hcap) as (_ & _ & Hadmin).
  destruct (extract_valid_placename_accepted _ _ Hex) as (suffix & after & _ & Hacc).
  destruct Hacc as [Hsplit Hlen _ _ _ _].
  unfold any_endswith. destruct (existsb (endswith name) ADMIN_LEVELS) eqn:E;
    [|reflexivity].
  exfalso. apply existsb_exists in E. destruct E as (admin & Hin & Hend).
  apply endswith_suffix in Hend. destruct Hend as [pre Hname].
  destruct (proj1 (Forall_forall _ _) ADMIN_LEVELS_single admin Hin) as [a ->].
  pose proof (proj1 (Forall_forall _ _) Hadmin [a] Hin) as Hnone.
  rewrite Hsplit, Hname, <- app_assoc in Hnone. revert Hnone.
  apply re_match_admin_complete.
  - rewrite Hname in Hideo. apply Forall_app in Hideo. tauto.
  - rewrite Hname, len_app in Hlen. unfold len in Hlen. simpl in Hlen. lia.
Qed.

Lemma detected_name_not_admin_witness : any_endswith jiangling ADMIN_LEVELS = false.
Proof.
  apply (detected_name_not_admin scenario_a_line jiangling).
  - vm_compute. lia.
  - vm_compute. reflexivity.
  - unfold jiangling. repeat (constructor; [vm_compute; reflexivity|]). constructor.
Defined.

Lemma find_lowest s sub pre post : s = pre ++ sub ++ post -> find s sub <= len pre.
Proof.
  intros ->. induction pre as [|c pre IH].
  - simpl app. destruct (sub ++ post) as [|c t] eqn:E.
    + rewrite find_nil. destruct sub; [cbn; lia | discriminate].
    + rewrite find_cons, <- E, startswith_app. cbn. lia.
  - simpl app. rewrite find_cons.
    assert (Hlen : len (c :: pre) = len pre + 1) by (unfold len; simpl length; lia).
    pose proof (len_nonneg pre).
    destruct (startswith (c :: pre ++ sub ++ post) sub); [lia|].
    destruct (Z.ltb_spec (find (pre ++ sub ++ post) sub) 0); lia.
Qed.

Lemma try_suffix_index cleaned_start suffix name :
  try_suffix cleaned_start suffix = Some name ->
  0 <= find cleaned_start suffix /\
  name = slice_to cleaned_start (find cleaned_start suffix + 1).
Proof.
  unfold try_suffix.
  destruct (str_in suffix cleaned_start) eqn:Hin; cbn [negb]; [|discriminate].
  apply str_in_find in Hin.
  destruct (negb _); [discriminate|].
  destruct (any_startswith _ STOP_START_WORDS); [discriminate|].
  destruct (_ && _ && _); [discriminate|].
  intros [= <-]. split; [exact Hin | reflexivity].
Qed.

Lemma first_accepted_try cleaned_start suffixes name :
  first_accepted cleaned_start suffixes = Some name ->
  exists suffix, In suffix suffixes /\ try_suffix cleaned_start suffix = Some name.
Proof.
  induction suffixes as [|suffix rest IH]; simpl; [discriminate|].
  destruct (try_suffix cleaned_start suffix) as [p|] eqn:E.
  - intros [= <-]. exists suffix. split; [now left | exact E].
  - intros H. destruct (IH H) as (s & Hs & Ht). exists s. split; [now right | exact Ht].
Qed.

(** X6: a returned name is the cleaned line up to the first occurrence of a
    suffix of the table, and that occurrence is at index 1 or 2: the name is
    one or two characters followed by the suffix character, which occurs
    nowhere earlier in the name. *)
Theorem detected_name_first_suffix (line name : str) :
  extract_valid_placename line = Some name ->
  exists pre c after_name,
    name = pre ++ [c] /\ In [c] PLACE_SUFFIXES /\
    clean_line_start line = pre ++ [c] ++ after_name /\
    find (clean_line_start line) [c] = len pre /\
    (length pre = 1 \/ length pre = 2)%nat /\
    ~ In c pre.
Proof.
  intros Hex. unfold extract_valid_placename in Hex.
  destruct (is_empty (clean_line_start line)); [discriminate Hex|].
  destruct (first_accepted_try _ _ _ Hex) as (suffix & Hin & Htry).
  destruct (proj1 (Forall_forall _ _) PLACE_SUFFIXES_single suffix Hin) as [c ->].
  destruct (try_suffix_index _ _ _ Htry) as [Hfind Hname].
  destruct (try_suffix_accepted _ _ _ Htry) as [_ Hlen _ _ _ _].
  destruct (find_occurrence _ _ Hfind) as (pre & post & Hline & Hpre).
  assert (Hn : name = pre ++ [c]).
  { rewrite Hname, <- Hpre. replace (len pre + 1) with (len (pre ++ [c]))
      by (rewrite len_app; reflexivity).
    rewrite Hline at 1. rewrite app_assoc. apply slice_to_app. }
  exists pre, c, post. repeat split; try assumption.
  - now symmetry.
  - rewrite Hn, len_app in Hlen. unfold len in Hlen. simpl in Hlen. lia.
  - intros Hc. apply in_split in Hc. destruct Hc as (p1 & p2 & Hp).
    pose proof (find_lowest (clean_line_start line) [c] p1 (p2 ++ [c] ++ post)) as Hlow.
    rewrite <- Hpre in Hlow. rewrite Hp, len_app in Hlow.
    assert (Hlen2 : len (c :: p2) = len p2 + 1) by (unfold len; simpl length; lia).
    pose proof (len_nonneg p2). rewrite Hlen2 in Hlow.
    enough (len p1 + (len p2 + 1) <= len p1) by lia. apply Hlow.
    rewrite Hline, Hp, <- !app_assoc. reflexivity.
Qed.

Lemma detected_name_first_suffix_witness :
  exists pre c after_name,
    jiangling = pre ++ [c] /\ In [c] PLACE_SUFFIXES /\
    clean_line_start scenario_a_line = pre ++ [c] ++ after_name /\ ~ In c pre.
Proof.
  destruct (detected_name_first_suffix scenario_a_line jiangling)
    as (pre & c & after & H1 & H2 & H3 & _ & _ & H4).
  - vm_compute. reflexivity.
  - exists pre, c, after. repeat split; assumption.
Defined.

(** ** What re-resolution can and cannot do *)

Lemma candidate_shape_valid m :
  candidate_shape m ->
  (len m = 2 \/ len m = 3) /\
  is_valid_placename m = negb (any_startswith m STOP_START_WORDS).
Proof.
  intros (ideographs & suffix & Hm & Hlen & _ & Hin).
  destruct (proj1 (Forall_forall _ _) PLACE_SUFFIXES_single suffix Hin) as [c ->].
  assert (Hl : len m = 2 \/ len m = 3).
  { rewrite Hm, len_app. unfold len. simpl length. lia. }
  split; [exact Hl|]. unfold is_valid_placename.
  replace ((2 <=? len m) && (len m <=? 4)) with true
    by (symmetry; apply andb_true_iff; split; apply Z.leb_le; lia).
  cbn [negb]. destruct (any_startswith m STOP_START_WORDS); [reflexivity|].
  rewrite (any_endswith_In m [c]); [reflexivity | exact Hin |].
  exists ideographs. exact Hm.
Qed.

(** X7: every candidate [findall] reports for re-resolution has 2 or 3
    characters and ends with a suffix of the table, so [is_valid_placename]
    accepts it exactly when it starts with no stop word. *)
Theorem findall_candidates_valid (text : str) :
  Forall (fun m =>
            (len m = 2 \/ len m = 3) /\
            is_valid_placename m = negb (any_startswith m STOP_START_WORDS))
         (findall text).
Proof.
  apply Forall_forall. intros m Hm. apply candidate_shape_valid.
  exact (proj1 (Forall_forall _ _) (findall_shape text) m Hm).
Qed.

Lemma filter_nil_iff (f : str -> bool) l :
  filter f l = [] <-> Forall (fun m => f m = false) l.
Proof.
  induction l as [|x l IH]; simpl.
  - split; [constructor | reflexivity].
  - destruct (f x) eqn:E.
    + split; [discriminate | intros H; inversion H; congruence].
    + rewrite IH. split; [now constructor | intros H; now inversion H].
Qed.

(** X8: [validate_and_resolve] discards a record exactly when its name
    fails [is_valid_placename] and every candidate found in its text starts
    with a stop word (in particular when the text holds no candidate); a
    record with a valid name is never discarded. *)
Theorem validate_and_resolve_discards (record : PlaceNameRecord) :
  validate_and_resolve record = None <->
  is_valid_placename (placename record) = false /\
  Forall (fun m => any_startswith m STOP_START_WORDS = true) (findall (text record)).
Proof.
  assert (Hall : Forall (fun m => any_startswith m STOP_START_WORDS = true)
                        (findall (text record)) <->
                 filter is_valid_placename (findall (text record)) = []).
  { rewrite filter_nil_iff. pose proof (findall_candidates_valid (text record)) as Hc.
    rewrite !Forall_forall in *. split; intros H m Hm; specialize (H m Hm);
      destruct (Hc m Hm) as [_ Hv]; rewrite Hv in *.
    - now rewrite H.
    - now destruct (any_startswith m STOP_START_WORDS). }
  rewrite Hall. split.
  - intros Hnone.
    destruct (filter is_valid_placename (findall (text record))) as [|first rest] eqn:Hf.
    + rewrite validate_and_resolve_keep in Hnone by now left.
      destruct (is_valid_placename (placename record)); [discriminate Hnone | auto].
    + exfalso.
      destruct (negb (str_mem (placename record) (first :: rest))
                || negb (is_valid_placename (placename record))) eqn:Hc.
      * rewrite (validate_and_resolve_replace _ _ _ Hf Hc) in Hnone. discriminate Hnone.
      * rewrite validate_and_resolve_keep in Hnone by (right; now rewrite Hf).
        apply orb_false_iff in Hc. destruct Hc as [_ Hv].
        apply negb_false_iff in Hv. rewrite Hv in Hnone. discriminate Hnone.
  - intros [Hinvalid Hf]. rewrite validate_and_resolve_keep by now left.
    now rewrite Hinvalid.
Qed.

(** X9: a record [validate_and_resolve] returns keeps its text and source,
    and its name is valid; the name is the original one or a candidate that
    occurs in the record's own text, of 2 or 3 characters: re-resolution
    never introduces a name of 4 characters. *)
Theorem validate_and_resolve_returns (record record' : PlaceNameRecord) :
  validate_and_resolve record = Some record' ->
  text record' = text record /\ source record' = source record /\
  is_valid_placename (placename record') = true /\
  (placename record' = placename record \/
   In (placename record') (findall (text record)) /\
   is_substring (placename record') (text record) /\
   (len (placename record') = 2 \/ len (placename record') = 3)).
Proof.
  intros H. destruct (validate_and_resolve_some _ _ H) as (Hv & Ht & Hs).
  repeat split; try assumption.
  destruct (filter is_valid_placename (findall (text record))) as [|first rest] eqn:Hf.
  - rewrite validate_and_resolve_keep in H by now left.
    destruct (is_valid_placename (placename record)); [|discriminate H].
    injection H as <-. now left.
  - destruct (negb (str_mem (placename record) (first :: rest))
              || negb (is_valid_placename (placename record))) eqn:Hc.
    + rewrite (validate_and_resolve_replace _ _ _ Hf Hc) in H. injection H as <-.
      right. cbn [set_placename placename].
      assert (Hin : In first (findall (text record))).
      { assert (Hin' : In first (filter is_valid_placename (findall (text record))))
          by (rewrite Hf; now left).
        apply filter_In in Hin'. tauto. }
      split; [exact Hin|]. split.
      * exact (scanned_substring _ _ _ (findall_scanned (text record)) Hin).
      * exact (proj1 (proj1 (Forall_forall _ _)
                        (findall_candidates_valid (text record)) first Hin)).
    + rewrite validate_and_resolve_keep in H by (right; now rewrite Hf).
      destruct (is_valid_placename (placename record)); [|discriminate H].
      injection H as <-. now left.
Qed.

Lemma validate_and_resolve_returns_witness :
  is_substring shu_nan_jun shu_nan_jun.
Proof.
  destruct (validate_and_resolve_returns (mkRecord jiangling shu_nan_jun file_1)
              (mkRecord shu_nan_jun shu_nan_jun file_1))
    as (_ & _ & _ & [H|(_ & H & _)]).
  - vm_compute. reflexivity.
  - vm_compute in H. discriminate H.
  - exact H.
Defined.

(** ** The steps of the scan *)

Lemma truthy_detected line name :
  extract_valid_placename line = Some name ->
  truthy (extract_valid_placename line) = Some name.
Proof.
  intros H. rewrite H. unfold truthy.
  now rewrite (extract_valid_placename_nonempty _ _ H).
Qed.

Lemma truthy_some o s : truthy o = Some s -> o = Some s /\ is_empty s = false.
Proof.
  destruct o as [x|]; [|discriminate]. unfold truthy.
  destruct (is_empty x) eqn:E; [discriminate|]. intros [= <-]. auto.
Qed.

Lemma dict_append_has k x d d' : dict_append k x d = Some d' -> dict_has k d = true.
Proof.
  revert d'. induction d as [|[k0 v0] d IH]; intros d'; [discriminate|].
  rewrite dict_has_cons. cbn [dict_append]. destruct (key_eqb k k0); [reflexivity|].
  cbn [orb]. destruct (dict_append k x d) as [d0|]; [|discriminate].
  intros _. now apply (IH d0).
Qed.

(** The three ways a line is processed: skipped, opening (or reopening) the
    bucket of a detected name, or continuing the open record. *)
Lemma process_line_cases fname d last_place raw st' :
  process_line fname (d, last_place) raw = Some st' ->
  st' = (d, last_place) /\
    (strip raw = [] \/ plain_line raw /\ truthy last_place = None) \/
  (exists name,
      extract_valid_placename (strip raw) = Some name /\
      snd st' = Some name /\
      let d1 := if dict_has (name, fname) d then d else d ++ [((name, fname), [])] in
      (residual_content (strip raw) name = [] /\ fst st' = d1 \/
       residual_content (strip raw) name <> [] /\
       dict_append (name, fname) (residual_content (strip raw) name) d1
         = Some (fst st'))) \/
  (exists place,
      truthy last_place = Some place /\ plain_line raw /\ strip raw <> [] /\
      snd st' = last_place /\
      dict_append (place, fname) (strip raw) d = Some (fst st')).
Proof.
  unfold process_line. destruct (is_empty (strip raw)) eqn:Hline.
  { intros [= <-]. left. split; [reflexivity|]. left.
    destruct (strip raw); [reflexivity | discriminate Hline]. }
  apply is_empty_false in Hline.
  destruct (extract_valid_placename (strip raw)) as [name|] eqn:Hex.
  - rewrite <- Hex at 1. rewrite (truthy_detected _ _ Hex).
    fold (residual_content (strip raw) name).
    intros H. right. left. exists name. split; [reflexivity|].
    assert (Hd1 : (if negb (dict_has (name, fname) d)
                   then dict_set (name, fname) [] d else d) =
                  (if dict_has (name, fname) d then d
                   else d ++ [((name, fname), [])])).
    { destruct (dict_has (name, fname) d) eqn:Hhas; cbn [negb]; [reflexivity|].
      now apply dict_set_new. }
    rewrite Hd1 in H. cbv zeta.
    destruct (is_empty (residual_content (strip raw) name)) eqn:Hres; cbn [negb] in H.
    + injection H as <-. cbn [fst snd]. split; [reflexivity|]. left.
      destruct (residual_content (strip raw) name); [auto | discriminate Hres].
    + apply is_empty_false in Hres.
      destruct (dict_append (name, fname) (residual_content (strip raw) name) _)
        as [d2|] eqn:Happ; [|discriminate H].
      injection H as <-. cbn [fst snd]. split; [reflexivity|].
      right. split; [exact Hres | first [exact Happ | reflexivity]].
  - cbn [truthy]. destruct (truthy last_place) as [place|] eqn:Hplace.
    + destruct (dict_append (place, fname) (strip raw) d) as [d2|] eqn:Happ;
        [|discriminate].
      intros [= <-]. right. right. exists place. cbn [fst snd].
      repeat split; first [assumption | reflexivity].
    + intros [= <-]. left. split; [reflexivity|]. right. split; [exact Hex | reflexivity].
Qed.

Lemma residual_content_suffix line name : is_suffix (residual_content line name) line.
Proof.
  unfold residual_content.
  eapply is_suffix_trans; [apply lstrip_chars_suffix | apply slice_from_suffix].
Qed.

Lemma dict_append_Forall (P : key * list str -> Prop) k x d d' :
  dict_append k x d = Some d' ->
  (forall v, P (k, v) -> P (k, v ++ [x])) -> Forall P d -> Forall P d'.
Proof.
  intros Happ HP Hd.
  destruct (dict_append_present k x d (dict_append_has _ _ _ _ Happ))
    as (d0 & Hd0 & _ & _ & _ & Hall).
  rewrite Hd0 in Happ. injection Happ as <-. now apply Hall.
Qed.

(** ** Where records come from *)

Lemma process_line_from files fname lines raw st st' :
  In (fname, lines) files -> In raw lines ->
  Forall (bucket_from files) (fst st) ->
  process_line fname st raw = Some st' ->
  Forall (bucket_from files) (fst st').
Proof.
  destruct st as [d last_place]. cbn [fst]. intros Hfile Hraw Hd H.
  assert (Hline : line_of files fname raw) by (exists lines; auto).
  assert (Happend : forall n c d0 d1,
             is_suffix c (strip raw) -> Forall (bucket_from files) d0 ->
             dict_append (n, fname) c d0 = Some d1 -> Forall (bucket_from files) d1).
  { intros n c d0 d1 Hc Hd0 Happ. apply (dict_append_Forall _ _ _ _ _ Happ); [|exact Hd0].
    intros v [Hk Hv]. split; [exact Hk|]. cbn [fst snd] in *.
    apply Forall_app. split; [exact Hv|]. constructor; [|constructor].
    exists raw. split; [exact Hline | exact Hc]. }
  destruct (process_line_cases _ _ _ _ _ H)
    as [[-> _]|[(name & Hex & _ & Hd1)|(place & _ & _ & _ & _ & Happ)]].
  - exact Hd.
  - cbv zeta in Hd1.
    assert (Hok : Forall (bucket_from files)
                    (if dict_has (name, fname) d then d
                     else d ++ [((name, fname), [])])).
    { destruct (dict_has (name, fname) d); [exact Hd|].
      apply Forall_app. split; [exact Hd|]. constructor; [|constructor].
      split; [|constructor]. exists raw. split; [exact Hline | exact Hex]. }
    destruct Hd1 as [[_ ->]|[_ Happ]]; [exact Hok|].
    exact (Happend _ _ _ _ (residual_content_suffix _ _) Hok Happ).
  - exact (Happend _ _ _ _ (is_suffix_refl _) Hd Happ).
Qed.

Lemma process_lines_from files fname lines :
  In (fname, lines) files ->
  forall rest st st',
    incl rest lines ->
    Forall (bucket_from files) (fst st) ->
    process_lines fname st rest = Some st' ->
    Forall (bucket_from files) (fst st').
Proof.
  intros Hfile. induction rest as [|raw rest IH]; intros st st' Hincl Hst; simpl.
  - now intros [= <-].
  - destruct (process_line fname st raw) as [st1|] eqn:E; [|discriminate].
    apply IH.
    + intros x Hx. apply Hincl. now right.
    + apply (process_line_from files fname lines raw st st1); auto.
      apply Hincl. now left.
Qed.

Lemma aggregate_from_from files :
  forall rest (d d' : buckets),
    incl rest files ->
    Forall (bucket_from files) d ->
    aggregate_from d rest = Some d' ->
    Forall (bucket_from files) d'.
Proof.
  induction rest as [|[fname lines] rest IH]; intros d d' Hincl Hd;
    cbn [aggregate_from].
  - now intros [= <-].
  - destruct (process_lines fname (d, None) lines) as [st|] eqn:E; [|discriminate].
    apply IH.
    + intros x Hx. apply Hincl. now right.
    + apply (process_lines_from files fname lines) with (rest := lines) (st := (d, None)).
      * apply Hincl. now left.
      * apply incl_refl.
      * exact Hd.
      * exact E.
Qed.


(** ** Files do not interfere *)

Lemma foreign_key fname (d : buckets) name :
  foreign fname d -> dict_has (name, fname) d = false.
Proof.
  intros Hd. destruct (dict_has (name, fname) d) eqn:E; [|reflexivity].
  apply dict_has_In in E. apply in_map_iff in E. destruct E as (e & He & Hin).
  pose proof (proj1 (Forall_forall _ _) Hd e Hin) as Hne.
  destruct e as [[n s] v]. cbn [fst snd] in He, Hne. injection He as -> ->.
  now contradiction Hne.
Qed.

Lemma dict_has_app k (d e : buckets) : dict_has k (d ++ e) = dict_has k d || dict_has k e.
Proof. unfold dict_has. apply existsb_app. Qed.

Lemma dict_append_foreign k x (d e : buckets) :
  dict_has k d = false ->
  dict_append k x (d ++ e) = option_map (app d) (dict_append k x e).
Proof.
  induction d as [|[k0 v0] d IH]; intros Hd.
  - cbn [app]. now destruct (dict_append k x e).
  - rewrite dict_has_cons in Hd. apply orb_false_iff in Hd. destruct Hd as [Hk Hd].
    cbn [app dict_append]. rewrite Hk, (IH Hd).
    now destruct (dict_append k x e).
Qed.

Lemma process_line_foreign fname (d e : buckets) last_place raw :
  foreign fname d ->
  process_line fname (d ++ e, last_place) raw =
  option_map (fun st => (d ++ fst st, snd st)) (process_line fname (e, last_place) raw).
Proof.
  intros Hd. unfold process_line.
  destruct (is_empty (strip raw)); [reflexivity|].
  destruct (truthy (extract_valid_placename (strip raw))) as [name|].
  - rewrite dict_has_app, (foreign_key fname d name Hd). cbn [orb].
    set (content := lstrip_chars CONTENT_SEPARATORS _).
    assert (Hset : (if negb (dict_has (name, fname) e)
                    then dict_set (name, fname) [] (d ++ e) else d ++ e) =
                   d ++ (if negb (dict_has (name, fname) e)
                         then dict_set (name, fname) [] e else e)).
    { destruct (dict_has (name, fname) e) eqn:Hhas; cbn [negb]; [reflexivity|].
      rewrite !dict_set_new, app_assoc; try reflexivity; try exact Hhas.
      rewrite dict_has_app, (foreign_key fname d name Hd). exact Hhas. }
    rewrite Hset. destruct (negb (is_empty content)); [|reflexivity].
    rewrite dict_append_foreign by exact (foreign_key fname d name Hd).
    now destruct (dict_append (name, fname) content _).
  - destruct (truthy last_place) as [place|]; [|reflexivity].
    rewrite dict_append_foreign by exact (foreign_key fname d place Hd).
    now destruct (dict_append (place, fname) (strip raw) e).
Qed.

Lemma process_lines_foreign fname (d : buckets) lines :
  foreign fname d ->
  forall (e : buckets) last_place,
    process_lines fname (d ++ e, last_place) lines =
    option_map (fun st => (d ++ fst st, snd st))
               (process_lines fname (e, last_place) lines).
Proof.
  intros Hd. induction lines as [|raw lines IH]; intros e last_place;
    cbn [process_lines]; [reflexivity|].
  rewrite (process_line_foreign fname d e last_place raw Hd).
  destruct (process_line fname (e, last_place) raw) as [[e1 lp1]|]; [|reflexivity].
  cbn [option_map fst snd]. apply IH.
Qed.

Lemma aggregate_from_foreign (d : buckets) files :
  Forall (fun f => foreign (fst f) d) files ->
  forall e : buckets,
    aggregate_from (d ++ e) files = option_map (app d) (aggregate_from e files).
Proof.
  induction 1 as [|[fname lines] files Hf _ IH]; intros e; cbn [aggregate_from].
  - reflexivity.
  - cbn [fst] in Hf.
    pose proof (process_lines_foreign fname d lines Hf e None) as Hlines.
    unfold buckets in *. rewrite Hlines.
    destruct (process_lines fname (e, None) lines) as [[e1 lp1]|]; [|reflexivity].
    cbn [option_map fst snd]. apply IH.
Qed.

Lemma aggregate_from_app (d : buckets) files1 files2 :
  aggregate_from d (files1 ++ files2) =
  match aggregate_from d files1 with
  | Some d1 => aggregate_from d1 files2
  | None => None
  end.
Proof.
  revert d. induction files1 as [|[fname lines] files1 IH]; intros d;
    cbn [app aggregate_from]; [reflexivity|].
  destruct (process_lines fname (d, None) lines) as [st|]; [apply IH | reflexivity].
Qed.

Lemma make_records_app d1 d2 :
  make_records (d1 ++ d2) = make_records d1 ++ make_records d2.
Proof.
  induction d1 as [|[[name src] texts] d1 IH]; cbn [app make_records]; [reflexivity|].
  destruct (negb (is_empty (combined_text texts))); cbn [app]; now rewrite IH.
Qed.

(** Listings under different names do not interfere. *)
Lemma extract_from_directory_listing_app (files1 files2 : list document) :
  (forall fname, In fname (map fst files2) -> ~ In fname (map fst files1)) ->
  exists records1 records2,
    extract_from_directory files1 = Some records1 /\
    extract_from_directory files2 = Some records2 /\
    extract_from_directory (files1 ++ files2) = Some (records1 ++ records2).
Proof.
  intros Hdisjoint.
  destruct (aggregate_ok files1) as (d1 & Hd1 & _).
  destruct (aggregate_ok files2) as (d2 & Hd2 & _).
  exists (make_records d1), (make_records d2).
  unfold extract_from_directory, aggregate in *.
  rewrite aggregate_from_app, Hd1, Hd2. split; [reflexivity|]. split; [reflexivity|].
  rewrite <- (app_nil_r d1) at 1. rewrite aggregate_from_foreign, Hd2.
  - cbn [option_map]. now rewrite make_records_app.
  - pose proof (aggregate_from_from files1 files1 [] d1 (incl_refl _) (Forall_nil _) Hd1)
      as Hfrom.
    apply Forall_forall. intros [fname lines] Hin. cbn [fst].
    apply Forall_forall. intros e He Hsrc.
    destruct (proj1 (Forall_forall _ _) Hfrom e He) as [(raw & (l & Hfile & _) & _) _].
    apply (Hdisjoint fname).
    + apply in_map_iff. now exists (fname, lines).
    + apply in_map_iff. exists (snd (fst e), l). split; [exact Hsrc | exact Hfile].
Qed.

(** ** Lines without a name *)

Lemma process_line_plain fname (d : buckets) raw :
  plain_line raw -> process_line fname (d, None) raw = Some (d, None).
Proof.
  intros Hplain. unfold process_line. destruct (is_empty (strip raw)); [reflexivity|].
  unfold plain_line in Hplain. now rewrite Hplain.
Qed.

Lemma process_lines_plain fname (d : buckets) before rest :
  Forall plain_line before ->
  process_lines fname (d, None) (before ++ rest) = process_lines fname (d, None) rest.
Proof.
  induction 1 as [|raw before Hraw _ IH]; [reflexivity|].
  cbn [app process_lines]. now rewrite (process_line_plain fname d raw Hraw).
Qed.

(** X12: the lines of a file that come before the first line with a
    detected name leave no trace: dropping them from the file does not
    change the records. *)
Theorem leading_lines_discarded
        (files1 files2 : list document) (fname : str) (before rest : list str) :
  Forall plain_line before ->
  extract_from_directory (files1 ++ (fname, before ++ rest) :: files2) =
  extract_from_directory (files1 ++ (fname, rest) :: files2).
Proof.
  intros Hplain. unfold extract_from_directory, aggregate.
  rewrite !aggregate_from_app.
  destruct (aggregate_from [] files1) as [d1|]; [|reflexivity].
  cbn [aggregate_from]. now rewrite (process_lines_plain fname d1 before rest Hplain).
Qed.

Lemma leading_lines_discarded_witness :
  extract_from_directory [(file_1, [comma_line; jiangling_line])] =
  extract_from_directory [(file_1, [jiangling_line])].
Proof.
  apply (leading_lines_discarded [] [] file_1 [comma_line] [jiangling_line]).
  constructor; [vm_compute; reflexivity | constructor].
Defined.


(** ** Buckets and records *)

Lemma combined_text_nonempty (c : str) (texts : list str) :
  c <> [] -> combined_text (c :: texts) <> [].
Proof.
  intros Hc. unfold combined_text, dict_fromkeys. cbn [fromkeys_aux existsb].
  destruct c as [|x c]; [now contradiction Hc|].
  destruct (fromkeys_aux _ texts); cbn [join app]; intros H; discriminate H.
Qed.

Lemma make_records_complete (d : buckets) name src texts :
  In ((name, src), texts) d -> combined_text texts <> [] ->
  In (mkRecord name (combined_text texts) src) (make_records d).
Proof.
  intros Hin Hne. apply is_empty_false in Hne.
  induction d as [|[[n0 s0] t0] d IH]; [destruct Hin|].
  cbn [make_records]. destruct Hin as [[= -> -> ->]|Hin].
  - rewrite Hne. now left.
  - destruct (negb (is_empty (combined_text t0))); [right|]; now apply IH.
Qed.

(** X14: a bucket gives a record exactly when it holds at least one
    contribution: a name detected with nothing behind it on its line and
    with no continuation line gives no record. *)
Theorem bucket_gives_record (files : list document) :
  exists d,
    aggregate files = Some d /\
    extract_from_directory files = Some (make_records d) /\
    forall name src texts,
      In ((name, src), texts) d ->
      (texts <> [] <->
       In (mkRecord name (combined_text texts) src) (make_records d)).
Proof.
  destruct (aggregate_ok files) as (d & Hd & Hall & _).
  exists d. unfold extract_from_directory. rewrite Hd.
  split; [reflexivity|]. split; [reflexivity|].
  intros name src texts Hin. split.
  - intros Hne. apply make_records_complete; [exact Hin|].
    destruct texts as [|c texts]; [now contradiction Hne|].
    apply combined_text_nonempty.
    destruct (proj1 (Forall_forall _ _) Hall _ Hin) as [_ Hc].
    cbn [snd] in Hc. inversion Hc as [|? ? [Hcne _] _]; subst. exact Hcne.
  - intros Hr Htexts. subst texts.
    destruct (make_records_In d _ Hr) as (_ & _ & _ & Hne).
    cbn [text] in Hne. discriminate Hne.
Qed.

(** ** The text kept after a detected name *)

Lemma rstrip_trimmed x :
  (forall pre c, x = pre ++ [c] -> is_space c = false) -> rstrip x = x.
Proof.
  intros H. unfold rstrip. destruct (rev x) as [|c t] eqn:E.
  - cbn. apply (f_equal (@rev char)) in E. rewrite rev_involutive in E. now rewrite E.
  - cbn [dropwhile]. rewrite (H (rev t) c).
    + rewrite <- E. apply rev_involutive.
    + apply (f_equal (@rev char)) in E. rewrite rev_involutive in E. exact E.
Qed.

Lemma suffix_of_suffix (a b s : str) :
  is_suffix a s -> is_suffix b s -> (length a <= length b)%nat -> is_suffix a b.
Proof.
  intros [p Hp] [q Hq] Hlen.
  assert (Ha : a = skipn (length p) s) by (rewrite Hp, skipn_app, skipn_all, Nat.sub_diag; reflexivity).
  assert (Hb : b = skipn (length q) s) by (rewrite Hq, skipn_app, skipn_all, Nat.sub_diag; reflexivity).
  assert (Hs : length s = (length p + length a)%nat) by (rewrite Hp, length_app; reflexivity).
  assert (Hs' : length s = (length q + length b)%nat) by (rewrite Hq, length_app; reflexivity).
  assert (Ha' : a = skipn (length p - length q) b).
  { rewrite Hb, skipn_skipn.
    replace (length p - length q + length q)%nat with (length p) by lia. exact Ha. }
  exists (firstn (length p - length q) b).
  rewrite Ha'. symmetry. apply firstn_skipn.
Qed.

Lemma dropwhile_app_suffix p x s : is_suffix (dropwhile p s) (dropwhile p (x ++ s)).
Proof.
  induction x as [|c x IH]; cbn [app dropwhile]; [apply is_suffix_refl|].
  destruct (p c); [exact IH|].
  eapply is_suffix_trans; [apply dropwhile_suffix|]. now exists (c :: x).
Qed.

Lemma clean_line_start_suffix_stripped raw :
  is_suffix (clean_line_start (strip raw)) (strip raw).
Proof.
  eapply is_suffix_trans; [apply clean_line_start_suffix|].
  pose proof (re_sub_leading_number_suffix (strip raw)) as Hsub.
  unfold strip at 1. rewrite rstrip_trimmed.
  - eapply is_suffix_trans; [apply dropwhile_suffix | exact Hsub].
  - intros pre c Hc.
    assert (Hsuf : is_suffix (lstrip (re_sub_leading_number (strip raw))) (strip raw))
      by (eapply is_suffix_trans; [apply dropwhile_suffix | exact Hsub]).
    destruct Hsuf as [q Hq]. rewrite Hc, app_assoc in Hq.
    exact (strip_last _ _ _ Hq).
Qed.

Lemma candidate_occurs_in_line_facts line name :
  extract_valid_placename line = Some name ->
  exists pre post,
    line = pre ++ name ++ post /\ len pre = find line name /\
    slice_from line (len pre + len name) = post.
Proof.
  intros H. pose proof (extract_valid_placename_substring _ _ H) as Hsub.
  destruct (find_occurrence _ _ (find_substring _ _ Hsub)) as (pre & post & Hline & Hpre).
  exists pre, post. split; [exact Hline|]. split; [exact Hpre|].
  rewrite Hline, app_assoc, <- len_app. apply slice_from_app.
Qed.

(** X15: nothing that follows the detected name on its line is lost: the
    text behind the name in the cleaned line, without its leading
    separators, is the end of the residual stored for the line, also when
    the name occurs earlier on the line than where it was detected. *)
Theorem residual_keeps_rest (raw name : str) :
  extract_valid_placename (strip raw) = Some name ->
  exists after_name,
    clean_line_start (strip raw) = name ++ after_name /\
    is_suffix (lstrip_chars CONTENT_SEPARATORS after_name)
              (residual_content (strip raw) name).
Proof.
  intros Hex.
  destruct (extract_valid_placename_accepted _ _ Hex) as (suffix & after & _ & Hacc).
  pose proof (acc_split _ _ _ _ Hacc) as Hsplit.
  exists after. split; [exact Hsplit|].
  destruct (candidate_occurs_in_line_facts (strip raw) name Hex)
    as (pre & post & Hline & Hpre & Hfrom).
  unfold residual_content. rewrite <- Hpre, Hfrom.
  assert (Hafter : is_suffix after post).
  { apply (suffix_of_suffix after post (strip raw)).
    - eapply is_suffix_trans; [|apply clean_line_start_suffix_stripped].
      exists name. exact Hsplit.
    - exists (pre ++ name). rewrite <- app_assoc. exact Hline.
    - destruct (clean_line_start_suffix_stripped raw) as [q Hq].
      rewrite Hsplit in Hq.
      pose proof (find_lowest (strip raw) name q after Hq) as Hlow.
      rewrite <- Hpre in Hlow. unfold len in Hlow.
      assert (Hl1 : length (strip raw) = (length q + (length name + length after))%nat)
        by (rewrite Hq at 1; rewrite !length_app; reflexivity).
      assert (Hl2 : length (strip raw) = (length pre + (length name + length post))%nat)
        by (rewrite Hline at 1; rewrite !length_app; reflexivity).
      lia. }
  destruct Hafter as [x ->]. apply dropwhile_app_suffix.
Qed.

Lemma residual_keeps_rest_witness :
  exists after_name,
    clean_line_start (strip scenario_a_line) = jiangling ++ after_name /\
    is_suffix (lstrip_chars CONTENT_SEPARATORS after_name)
              (residual_content (strip scenario_a_line) jiangling).
Proof.
  apply (residual_keeps_rest scenario_a_line jiangling).
  vm_compute. reflexivity.
Defined.

(** * The pass as a whole *)

(** ** Lines attributed to a name *)

Lemma extract_valid_placename_empty : extract_valid_placename [] = None.
Proof. vm_compute. reflexivity. Qed.

Lemma extract_valid_placename_line line name :
  extract_valid_placename line = Some name -> is_empty line = false.
Proof.
  intros H. destruct line; [|reflexivity].
  rewrite extract_valid_placename_empty in H. discriminate H.
Qed.

Lemma process_lines_app fname st lines1 lines2 :
  process_lines fname st (lines1 ++ lines2) =
  match process_lines fname st lines1 with
  | Some st1 => process_lines fname st1 lines2
  | None => None
  end.
Proof.
  revert st. induction lines1 as [|raw lines1 IH]; intros st;
    cbn [app process_lines]; [reflexivity|].
  destruct (process_line fname st raw) as [st1|]; [apply IH | reflexivity].
Qed.

Lemma open_name_app current lines1 lines2 :
  open_name current (lines1 ++ lines2) = open_name (open_name current lines1) lines2.
Proof.
  revert current. induction lines1 as [|raw lines1 IH]; intros current;
    cbn [app open_name]; [reflexivity|].
  destruct (extract_valid_placename (strip raw)); apply IH.
Qed.

Lemma detected_names_app lines1 lines2 :
  detected_names (lines1 ++ lines2) = detected_names lines1 ++ detected_names lines2.
Proof.
  induction lines1 as [|raw lines1 IH]; cbn [app detected_names]; [reflexivity|].
  destruct (extract_valid_placename (strip raw)); cbn [app]; now rewrite IH.
Qed.

Lemma attributed_app name current lines1 lines2 :
  attributed name current (lines1 ++ lines2) =
  attributed name current lines1
  ++ attributed name (open_name current lines1) lines2.
Proof.
  revert current. induction lines1 as [|raw lines1 IH]; intros current;
    cbn [app attributed]; [reflexivity|].
  rewrite IH, <- app_assoc. f_equal. f_equal. f_equal.
  cbn [open_name]. now destruct (extract_valid_placename (strip raw)).
Qed.

Lemma detected_names_nonempty lines name :
  In name (detected_names lines) -> is_empty name = false.
Proof.
  induction lines as [|raw lines IH]; cbn [detected_names]; [intros []|].
  destruct (extract_valid_placename (strip raw)) as [n|] eqn:E; [|exact IH].
  intros [<-|H]; [exact (extract_valid_placename_nonempty _ _ E) | now apply IH].
Qed.

Lemma open_name_detected current lines place :
  open_name current lines = Some place ->
  current = Some place \/ In place (detected_names lines).
Proof.
  revert current. induction lines as [|raw lines IH]; intros current;
    cbn [open_name detected_names]; [now left|].
  destruct (extract_valid_placename (strip raw)) as [n|]; intros H.
  - destruct (IH _ H) as [[= ->]|Hin]; right; [now left | now right].
  - exact (IH _ H).
Qed.

Lemma attributed_not_detected name current lines :
  current <> Some name -> ~ In name (detected_names lines) ->
  attributed name current lines = [].
Proof.
  revert current. induction lines as [|raw lines IH]; intros current Hcur Hnot;
    cbn [attributed]; [reflexivity|].
  unfold line_contribution. cbn [open_name detected_names] in *.
  destruct (extract_valid_placename (strip raw)) as [n|].
  - destruct (str_eqb n name) eqn:E.
    + apply str_eqb_eq in E. subst n. exfalso. apply Hnot. now left.
    + cbn [app]. apply IH.
      * intros [= ->]. now rewrite str_eqb_refl in E.
      * intros H. apply Hnot. now right.
  - rewrite (IH current Hcur Hnot), app_nil_r.
    destruct current as [place|]; [|reflexivity].
    destruct (str_eqb place name) eqn:E; [|reflexivity].
    apply str_eqb_eq in E. subst place. now contradiction Hcur.
Qed.

(** ** The dictionary of one file *)

Lemma named_buckets_ext fname names g g' :
  (forall name, In name names -> g name = g' name) ->
  named_buckets fname names g = named_buckets fname names g'.
Proof.
  intros H. unfold named_buckets. apply map_ext_in. intros n Hn. now rewrite (H n Hn).
Qed.

Lemma named_buckets_snoc fname names g name :
  named_buckets fname (names ++ [name]) g =
  named_buckets fname names g ++ [((name, fname), g name)].
Proof. unfold named_buckets. now rewrite map_app. Qed.

Lemma named_buckets_has fname names g name :
  dict_has (name, fname) (named_buckets fname names g) = str_mem name names.
Proof.
  induction names as [|n names IH]; [reflexivity|].
  cbn [named_buckets map]. rewrite dict_has_cons. fold (named_buckets fname names g).
  rewrite IH. unfold str_mem, key_eqb. cbn [existsb fst snd].
  now rewrite str_eqb_refl, andb_true_r.
Qed.

Lemma named_buckets_append fname names g name x :
  NoDup names -> In name names ->
  dict_append (name, fname) x (named_buckets fname names g) =
  Some (named_buckets fname names
          (fun n => if str_eqb name n then g n ++ [x] else g n)).
Proof.
  induction names as [|n names IH]; intros Hnd Hin; [destruct Hin|].
  inversion Hnd as [|? ? Hnotin Hnd']; subst.
  cbn [named_buckets map dict_append]. fold (named_buckets fname names g).
  unfold key_eqb. cbn [fst snd]. rewrite str_eqb_refl, andb_true_r.
  destruct (str_eqb name n) eqn:E.
  - apply str_eqb_eq in E. subst n. f_equal. f_equal.
    apply map_ext_in. intros m Hm.
    destruct (str_eqb name m) eqn:E; [|reflexivity].
    apply str_eqb_eq in E. subst m. now contradiction Hnotin.
  - destruct Hin as [->|Hin]; [now rewrite str_eqb_refl in E|].
    rewrite (IH Hnd' Hin). reflexivity.
Qed.

Lemma process_line_named fname names g current raw :
  NoDup names ->
  (forall place, current = Some place -> In place names /\ is_empty place = false) ->
  (forall name, ~ In name names -> g name = []) ->
  process_line fname (named_buckets fname names g, current) raw =
  Some (named_buckets fname (names_after names raw)
                      (fun name => g name ++ line_contribution name current raw),
        open_name current [raw]).
Proof.
  intros Hnd Hcur Hg. unfold process_line, names_after, line_contribution.
  cbn [open_name].
  destruct (is_empty (strip raw)) eqn:Hline.
  { assert (Hs : strip raw = []) by (destruct (strip raw); [reflexivity | discriminate Hline]).
    rewrite Hs, extract_valid_placename_empty. cbn [is_empty negb].
    f_equal. f_equal. apply named_buckets_ext. intros n _.
    destruct current as [place|]; [|now rewrite app_nil_r].
    now rewrite andb_false_r, app_nil_r. }
  destruct (extract_valid_placename (strip raw)) as [name|] eqn:Hex.
  - rewrite <- Hex at 1. rewrite (truthy_detected _ _ Hex).
    fold (residual_content (strip raw) name). rewrite named_buckets_has.
    unfold residual_contribution.
    assert (Hstep : forall names1,
               NoDup names1 -> In name names1 ->
               (if negb (is_empty (residual_content (strip raw) name))
                then dict_append (name, fname) (residual_content (strip raw) name)
                                 (named_buckets fname names1 g)
                else Some (named_buckets fname names1 g)) =
               Some (named_buckets fname names1
                       (fun n => g n ++
                                 (if str_eqb name n
                                  then if is_empty (residual_content (strip raw) name)
                                       then [] else [residual_content (strip raw) name]
                                  else [])))).
    { intros names1 Hnd1 Hin1.
      destruct (is_empty (residual_content (strip raw) name)); cbn [negb].
      - f_equal. apply named_buckets_ext. intros n _.
        destruct (str_eqb name n); now rewrite app_nil_r.
      - rewrite (named_buckets_append fname names1 g name _ Hnd1 Hin1). f_equal.
        apply named_buckets_ext. intros n _.
        destruct (str_eqb name n); [reflexivity | now rewrite app_nil_r]. }
    destruct (str_mem name names) eqn:Hmem; cbn [negb].
    + apply str_mem_In in Hmem. rewrite (Hstep names Hnd Hmem). reflexivity.
    + assert (Hnew : dict_set (name, fname) [] (named_buckets fname names g) =
                     named_buckets fname (names ++ [name]) g).
      { rewrite dict_set_new by (rewrite named_buckets_has; exact Hmem).
        rewrite named_buckets_snoc. apply str_mem_not_In in Hmem.
        now rewrite (Hg name Hmem). }
      rewrite Hnew. apply str_mem_not_In in Hmem. rewrite Hstep.
      * reflexivity.
      * apply NoDup_app; [exact Hnd | repeat constructor; intros [] |].
        intros x Hx [<-|[]]. now apply Hmem.
      * apply in_or_app. right. now left.
  - cbn [truthy]. destruct current as [place|].
    + destruct (Hcur place eq_refl) as [Hin Hplace]. unfold truthy. rewrite Hplace.
      rewrite (named_buckets_append fname names g place _ Hnd Hin). f_equal. f_equal.
      apply named_buckets_ext. intros n _. cbn [negb]. rewrite andb_true_r.
      destruct (str_eqb place n); [reflexivity | now rewrite app_nil_r].
    + cbn [truthy]. f_equal. f_equal. apply named_buckets_ext. intros n _.
      now rewrite app_nil_r.
Qed.

Lemma str_mem_fromkeys name l : str_mem name (dict_fromkeys l) = str_mem name l.
Proof. apply eq_true_iff_eq. now rewrite !str_mem_In, dict_fromkeys_In. Qed.

Lemma names_after_fromkeys lines raw :
  names_after (dict_fromkeys (detected_names lines)) raw =
  dict_fromkeys (detected_names (lines ++ [raw])).
Proof.
  unfold names_after. rewrite detected_names_app. cbn [detected_names].
  destruct (extract_valid_placename (strip raw)) as [name|].
  - rewrite dict_fromkeys_snoc, str_mem_fromkeys. reflexivity.
  - now rewrite app_nil_r.
Qed.

(** The scan of one file from the empty dictionary. *)
Lemma process_lines_file fname lines :
  process_lines fname ([], None) lines =
  Some (file_buckets (fname, lines), open_name None lines).
Proof.
  induction lines as [|raw lines IH] using rev_ind; [reflexivity|].
  rewrite process_lines_app, IH. cbn [process_lines].
  unfold file_buckets. cbn [fst snd].
  rewrite process_line_named.
  - rewrite names_after_fromkeys, open_name_app. f_equal. f_equal.
    apply named_buckets_ext. intros n _.
    rewrite attributed_app. cbn [attributed]. now rewrite app_nil_r.
  - apply dict_fromkeys_NoDup.
  - intros place Hplace. destruct (open_name_detected _ _ _ Hplace) as [H|H];
      [discriminate H|].
    split; [now apply dict_fromkeys_In | exact (detected_names_nonempty _ _ H)].
  - intros n Hn. apply attributed_not_detected; [discriminate|].
    intros H. apply Hn. now apply dict_fromkeys_In.
Qed.

Lemma foreign_app fname (d e : buckets) :
  foreign fname d -> foreign fname e -> foreign fname (d ++ e).
Proof. intros Hd He. apply Forall_app. now split. Qed.

Lemma file_buckets_foreign fname f :
  fst f <> fname -> foreign fname (file_buckets f).
Proof.
  intros Hne. unfold foreign, file_buckets, named_buckets.
  apply Forall_forall. intros e He. apply in_map_iff in He.
  destruct He as (n & <- & _). exact Hne.
Qed.

(** The scan of a listing whose names are all different. *)
Lemma aggregate_from_pass files :
  NoDup (map fst files) ->
  forall d : buckets,
    Forall (fun f => foreign (fst f) d) files ->
    aggregate_from d files = Some (d ++ pass_buckets files).
Proof.
  induction files as [|[fname lines] files IH]; intros Hnd d Hd.
  - cbn. now rewrite app_nil_r.
  - cbn [map fst] in Hnd. inversion Hnd as [|? ? Hnotin Hnd']; subst.
    inversion Hd as [|? ? Hf Hd']; subst. cbn [fst] in Hf.
    cbn [aggregate_from].
    pose proof (process_lines_foreign fname d lines Hf [] None) as Hlines.
    rewrite app_nil_r, process_lines_file in Hlines. cbn [option_map fst snd] in Hlines.
    unfold buckets in *. rewrite Hlines. cbn [fst].
    rewrite (IH Hnd').
    + unfold pass_buckets. cbn [flat_map]. now rewrite app_assoc.
    + apply Forall_forall. intros f Hin. apply foreign_app.
      * exact (proj1 (Forall_forall _ _) Hd' f Hin).
      * apply file_buckets_foreign. cbn [fst]. intros Heq. apply Hnotin.
        rewrite Heq. now apply in_map.
Qed.

Lemma aggregate_pass files :
  NoDup (map fst files) -> aggregate files = Some (pass_buckets files).
Proof.
  intros Hnd. unfold aggregate.
  rewrite (aggregate_from_pass files Hnd []); [reflexivity|].
  apply Forall_forall. intros f _. constructor.
Qed.

Lemma pass_buckets_In files name fname texts :
  In ((name, fname), texts) (pass_buckets files) <->
  exists lines,
    In (fname, lines) files /\ In name (detected_names lines) /\
    texts = attributed name None lines.
Proof.
  unfold pass_buckets. rewrite in_flat_map. split.
  - intros ([f lines] & Hf & Hin). unfold file_buckets, named_buckets in Hin.
    apply in_map_iff in Hin. cbn [fst snd] in Hin.
    destruct Hin as (n & [= -> -> <-] & Hn). exists lines.
    split; [exact Hf|]. split; [now apply dict_fromkeys_In | reflexivity].
  - intros (lines & Hf & Hn & ->). exists (fname, lines). split; [exact Hf|].
    unfold file_buckets, named_buckets. apply in_map_iff. exists name.
    split; [reflexivity | now apply dict_fromkeys_In].
Qed.

(** C5: within one document the pair (placename, source) is the key of
    aggregation.  On a listing of files with different names, the pass
    builds exactly one bucket for each distinct name detected in a file, in
    the order of first detection, and the bucket holds, in the order of the
    file, what every line of the file gives to the name: a later detection
    of the same name, and the continuation lines behind it, go to the end
    of the bucket the first detection opened.  The pass emits, for each
    such bucket with a non-empty text, one record whose text joins the
    contributions with equal values collapsed at their first place; no two
    records share (placename, source). *)
Theorem aggregation_key_unique (files : list document) :
  NoDup (map fst files) ->
  aggregate files = Some (pass_buckets files) /\
  extract_from_directory files = Some (make_records (pass_buckets files)) /\
  NoDup (map fst (pass_buckets files)) /\
  NoDup (map record_key (make_records (pass_buckets files))) /\
  (forall record,
      In record (make_records (pass_buckets files)) <->
      exists fname lines name,
        In (fname, lines) files /\ In name (detected_names lines) /\
        record = mkRecord name
                          (join SPACE (dict_fromkeys (attributed name None lines)))
                          fname /\
        text record <> []) /\
  (forall name before after,
      attributed name None (before ++ after) =
      attributed name None before ++ attributed name (open_name None before) after) /\
  (forall l, NoDup (dict_fromkeys l) /\ forall x, In x (dict_fromkeys l) <-> In x l) /\
  (forall l x, dict_fromkeys (l ++ [x]) =
               if str_mem x l then dict_fromkeys l else dict_fromkeys l ++ [x]).
Proof.
  intros Hnd. pose proof (aggregate_pass files Hnd) as Hagg.
  destruct (aggregate_ok files) as (d & Hd & _ & Hkeys).
  rewrite Hagg in Hd. injection Hd as <-.
  split; [exact Hagg|]. split; [unfold extract_from_directory; now rewrite Hagg|].
  split; [exact Hkeys|]. split; [now apply make_records_NoDup|].
  split; [|split; [|split]].
  - intros record. split.
    + intros Hr. destruct (make_records_In _ _ Hr) as (texts & Hin & Htext & Hne).
      destruct record as [name txt src]. cbn [record_key placename source text] in *.
      apply pass_buckets_In in Hin. destruct Hin as (lines & Hf & Hn & ->).
      exists src, lines, name. repeat split; try assumption.
      * now rewrite Htext.
      * now apply is_empty_false.
    + intros (fname & lines & name & Hf & Hn & -> & Hne). cbn [text] in Hne.
      apply make_records_complete; [|exact Hne].
      apply pass_buckets_In. now exists lines.
  - intros name before after. apply attributed_app.
  - intros l. split; [apply dict_fromkeys_NoDup | intros x; apply dict_fromkeys_In].
  - apply dict_fromkeys_snoc.
Qed.

(** C5 on the file 1.txt with the lines 江陵縣屬南郡, 武昌縣本漢舊縣,
    江陵縣，又東 and 又東: the second detection of 江陵縣 reopens its bucket,
    which ends as 屬南郡, 又東, 又東; the pass emits one record for 江陵縣,
    with the text 屬南郡 又東, and one for 武昌縣. *)
Lemma aggregation_key_unique_witness :
  aggregate reopening_files =
    Some [((jiangling, file_1), [shu_nan_jun; you_dong; you_dong]);
          ((wuchang, file_1), [[26412; 28450; 33290; 32291]])] /\
  extract_from_directory reopening_files =
    Some [mkRecord jiangling (shu_nan_jun ++ SPACE ++ you_dong) file_1;
          mkRecord wuchang [26412; 28450; 33290; 32291] file_1].
Proof.
  destruct (aggregation_key_unique reopening_files) as (H1 & H2 & _).
  - cbn [reopening_files map fst]. constructor; [intros [] | constructor].
  - split; [rewrite H1 | rewrite H2]; vm_compute; reflexivity.
Defined.

(** * The listing of the directory *)

Lemma key_of_error name e : key_of name = inl e -> e = ValueError.
Proof.
  unfold key_of. destruct (isdigit (path_stem name)); [|discriminate].
  destruct (int_of_digits (path_stem name)); [discriminate | now intros [= <-]].
Qed.

Lemma with_keys_inr entries ks :
  with_keys entries = inr ks -> map snd ks = entries /\ Forall keyed_ok ks.
Proof.
  revert ks. induction entries as [|f entries IH]; intros ks; cbn [with_keys].
  - intros [= <-]. split; [reflexivity | constructor].
  - destruct (key_of (fst f)) as [e|k] eqn:Hk; [discriminate|].
    destruct (with_keys entries) as [e|ks0]; [discriminate|].
    intros [= <-]. destruct (IH ks0 eq_refl) as [Hmap Hok].
    split; [cbn [map snd]; now rewrite Hmap | constructor; [exact Hk | exact Hok]].
Qed.

Lemma with_keys_inl entries e :
  with_keys entries = inl e ->
  e = ValueError /\ exists f, In f entries /\ key_of (fst f) = inl ValueError.
Proof.
  induction entries as [|f entries IH]; cbn [with_keys]; [discriminate|].
  destruct (key_of (fst f)) as [e0|k] eqn:Hk.
  - intros [= <-]. pose proof (key_of_error _ _ Hk) as ->.
    split; [reflexivity|]. exists f. split; [now left | exact Hk].
  - destruct (with_keys entries) as [e0|ks0]; [|discriminate].
    intros [= <-]. destruct (IH eq_refl) as [-> (g & Hg & Hkg)].
    split; [reflexivity|]. exists g. split; [now right | exact Hkg].
Qed.

Lemma insert_keyed_inl x l e : insert_keyed x l = inl e -> e = TypeError.
Proof.
  induction l as [|y l IH]; cbn [insert_keyed]; [discriminate|].
  destruct (key_ltb (fst y) (fst x)) as [[|]|]; [| discriminate | now intros [= <-]].
  destruct (insert_keyed x l) as [e0|r]; [|discriminate].
  intros [= <-]. now apply IH.
Qed.

Lemma sort_keyed_inl l e : sort_keyed l = inl e -> e = TypeError.
Proof.
  induction l as [|x l IH]; cbn [sort_keyed]; [discriminate|].
  destruct (sort_keyed l) as [e0|r].
  - intros [= <-]. now apply IH.
  - apply insert_keyed_inl.
Qed.

Lemma insert_keyed_perm x l r : insert_keyed x l = inr r -> Permutation (x :: l) r.
Proof.
  revert r. induction l as [|y l IH]; intros r; cbn [insert_keyed].
  - intros [= <-]. apply Permutation_refl.
  - destruct (key_ltb (fst y) (fst x)) as [[|]|]; [| | discriminate].
    + destruct (insert_keyed x l) as [e0|r0]; [discriminate|].
      intros [= <-]. eapply Permutation_trans; [apply perm_swap|].
      apply perm_skip. now apply IH.
    + intros [= <-]. apply Permutation_refl.
Qed.

Lemma sort_keyed_perm l r : sort_keyed l = inr r -> Permutation l r.
Proof.
  revert r. induction l as [|x l IH]; intros r; cbn [sort_keyed].
  - intros [= <-]. apply Permutation_refl.
  - destruct (sort_keyed l) as [e0|r0]; [discriminate|].
    intros H. eapply Permutation_trans; [|exact (insert_keyed_perm _ _ _ H)].
    apply perm_skip. now apply IH.
Qed.

(** The sort returns only on keys of one kind. *)
Lemma sort_keyed_one_kind l r :
  sort_keyed l = inr r ->
  exists b, Forall (fun x => is_int_key (fst x) = b) l.
Proof.
  revert r. induction l as [|x l IH]; intros r; cbn [sort_keyed].
  - intros _. exists true. constructor.
  - destruct (sort_keyed l) as [e0|r0] eqn:Hsort; [discriminate|].
    intros Hins. destruct (IH r0 eq_refl) as [b Hb].
    destruct r0 as [|y r0].
    + apply sort_keyed_perm in Hsort. apply Permutation_sym, Permutation_nil in Hsort.
      subst l. exists (is_int_key (fst x)). now constructor.
    + exists b. constructor; [|exact Hb].
      assert (Hy : is_int_key (fst y) = b).
      { apply sort_keyed_perm in Hsort.
        apply (proj1 (Forall_forall _ _) Hb).
        apply (Permutation_in _ (Permutation_sym Hsort)). now left. }
      cbn [insert_keyed] in Hins. rewrite <- Hy.
      destruct (fst y), (fst x); cbn in Hins |- *; try reflexivity; discriminate Hins.
Qed.

(** On keys of one kind the sort returns. *)
Lemma insert_keyed_one_kind b x l :
  is_int_key (fst x) = b -> Forall (fun y => is_int_key (fst y) = b) l ->
  exists r, insert_keyed x l = inr r.
Proof.
  intros Hx. induction 1 as [|y l Hy _ IH]; cbn [insert_keyed]; [now eexists|].
  assert (Hcmp : exists c, key_ltb (fst y) (fst x) = Some c).
  { rewrite <- Hy in Hx. destruct (fst y), (fst x); cbn in Hx |- *;
      try discriminate Hx; now eexists. }
  destruct Hcmp as [[|] ->]; [|now eexists].
  destruct IH as [r ->]. now eexists.
Qed.

Lemma sort_keyed_returns b l :
  Forall (fun y => is_int_key (fst y) = b) l -> exists r, sort_keyed l = inr r.
Proof.
  induction 1 as [|x l Hx Hl IH]; cbn [sort_keyed]; [now eexists|].
  destruct IH as [r Hr]. rewrite Hr.
  apply (insert_keyed_one_kind b); [exact Hx|].
  apply sort_keyed_perm in Hr.
  exact (Permutation_Forall Hr Hl).
Qed.

Lemma str_ltb_asym a b : str_ltb a b = true -> str_ltb b a = false.
Proof.
  revert b. induction a as [|x a IH]; intros [|y b]; cbn [str_ltb]; try easy.
  intros H. apply orb_true_iff in H. apply orb_false_iff.
  destruct H as [H|H].
  - apply Z.ltb_lt in H. split; [apply Z.ltb_ge; lia|].
    apply andb_false_iff. left. apply Z.eqb_neq. lia.
  - apply andb_true_iff in H. destruct H as [Hxy Hab]. apply Z.eqb_eq in Hxy. subst y.
    split; [apply Z.ltb_irrefl|]. rewrite Z.eqb_refl. cbn [andb]. now apply IH.
Qed.

Lemma key_ltb_asym a b : key_ltb a b = Some true -> key_ltb b a = Some false.
Proof.
  destruct a as [m|s], b as [n|t]; cbn [key_ltb]; try discriminate; intros [= H].
  - f_equal. apply Z.ltb_lt in H. apply Z.ltb_ge. lia.
  - f_equal. now apply str_ltb_asym.
Qed.

Lemma insert_keyed_head y x l r :
  keyed_le y x -> HdRel keyed_le y l -> insert_keyed x l = inr r ->
  HdRel keyed_le y r.
Proof.
  intros Hyx Hyl. destruct l as [|z l]; cbn [insert_keyed].
  - intros [= <-]. now constructor.
  - destruct (key_ltb (fst z) (fst x)) as [[|]|]; [| | discriminate].
    + destruct (insert_keyed x l) as [e0|r0]; [discriminate|].
      intros [= <-]. constructor. now inversion Hyl.
    + intros [= <-]. now constructor.
Qed.

Lemma insert_keyed_sorted x l r :
  Sorted keyed_le l -> insert_keyed x l = inr r -> Sorted keyed_le r.
Proof.
  intros Hl. revert r. induction Hl as [|y l Hl IH Hhd]; intros r; cbn [insert_keyed].
  - intros [= <-]. repeat constructor.
  - destruct (key_ltb (fst y) (fst x)) as [[|]|] eqn:Hcmp; [| | discriminate].
    + destruct (insert_keyed x l) as [e0|r0] eqn:Hins; [discriminate|].
      intros [= <-]. constructor; [now apply IH|].
      apply (insert_keyed_head y x l r0); [|exact Hhd | exact Hins].
      exact (key_ltb_asym _ _ Hcmp).
    + intros [= <-]. constructor; [now constructor|]. constructor. exact Hcmp.
Qed.

Lemma sort_keyed_sorted l r : sort_keyed l = inr r -> Sorted keyed_le r.
Proof.
  revert r. induction l as [|x l IH]; intros r; cbn [sort_keyed].
  - intros [= <-]. constructor.
  - destruct (sort_keyed l) as [e0|r0]; [discriminate|].
    apply insert_keyed_sorted. now apply IH.
Qed.

Lemma keyed_sorted_files ks :
  Forall keyed_ok ks -> Sorted keyed_le ks -> Sorted file_le (map snd ks).
Proof.
  intros Hok Hs. induction Hs as [|x ks Hs IH Hhd]; cbn [map]; [constructor|].
  inversion Hok as [|? ? Hx Hok']; subst. constructor; [now apply IH|].
  destruct Hhd as [|y ks Hxy]; cbn [map]; constructor.
  inversion Hok' as [|? ? Hy _]; subst.
  exists (fst x), (fst y). split; [exact Hx|]. split; [exact Hy | exact Hxy].
Qed.

Lemma sorted_txt_files_inr entries files :
  sorted_txt_files entries = inr files ->
  Permutation (filter is_txt entries) files /\
  Sorted file_le files /\
  exists b, Forall (fun f => exists k, key_of (fst f) = inr k /\ is_int_key k = b) files.
Proof.
  unfold sorted_txt_files.
  destruct (with_keys (filter is_txt entries)) as [e|ks] eqn:Hkeys; [discriminate|].
  destruct (sort_keyed ks) as [e|sorted] eqn:Hsort; [discriminate|].
  intros [= <-]. destruct (with_keys_inr _ _ Hkeys) as [Hmap Hok].
  pose proof (sort_keyed_perm _ _ Hsort) as Hperm.
  pose proof (Permutation_Forall Hperm Hok) as Hok'.
  split; [rewrite <- Hmap; now apply Permutation_map|].
  split; [apply keyed_sorted_files; [exact Hok' | exact (sort_keyed_sorted _ _ Hsort)]|].
  destruct (sort_keyed_one_kind _ _ Hsort) as [b Hb]. exists b.
  pose proof (Permutation_Forall Hperm Hb) as Hb'.
  apply Forall_forall. intros f Hf. apply in_map_iff in Hf.
  destruct Hf as (x & <- & Hx). exists (fst x).
  split; [exact (proj1 (Forall_forall _ _) Hok' x Hx)
         | exact (proj1 (Forall_forall _ _) Hb' x Hx)].
Qed.

Lemma sorted_txt_files_In entries files f :
  sorted_txt_files entries = inr files ->
  (In f files <-> In f entries /\ is_txt f = true).
Proof.
  intros H. destruct (sorted_txt_files_inr _ _ H) as [Hperm _].
  rewrite <- filter_In. split; intros Hin.
  - exact (Permutation_in _ (Permutation_sym Hperm) Hin).
  - exact (Permutation_in _ Hperm Hin).
Qed.

Lemma NoDup_map_filter (p : document -> bool) l :
  NoDup (map fst l) -> NoDup (map fst (filter p l)).
Proof.
  induction l as [|x l IH]; cbn [map filter]; [constructor|].
  intros H. inversion H as [|? ? Hnotin Hnd]; subst.
  destruct (p x); cbn [map]; [|now apply IH].
  constructor; [|now apply IH].
  intros Hin. apply Hnotin. apply in_map_iff in Hin.
  destruct Hin as (y & Hy & Hin). apply filter_In in Hin.
  apply in_map_iff. exists y. tauto.
Qed.

Lemma sorted_txt_files_NoDup entries files :
  NoDup (map fst entries) -> sorted_txt_files entries = inr files ->
  NoDup (map fst files).
Proof.
  intros Hnd H. destruct (sorted_txt_files_inr _ _ H) as [Hperm _].
  apply (Permutation_NoDup (Permutation_map fst Hperm)).
  now apply NoDup_map_filter.
Qed.

(** X16: the listing of the directory.  [sorted] raises [ValueError] exactly
    when a .txt entry has a stem of digits that [int] refuses (a superscript
    digit, say), and [TypeError] exactly when, this apart, stems of digits
    and other stems are both present.  Otherwise the list [files] holds the
    .txt entries and no other entry, all keys are of one kind, and no file
    has a greater key than the file after it. *)
Theorem sorted_txt_files_spec (entries : list document) :
  match sorted_txt_files entries with
  | inr files =>
      Permutation (filter is_txt entries) files /\
      Sorted file_le files /\
      exists b, Forall (fun f => exists k, key_of (fst f) = inr k /\ is_int_key k = b)
                       files
  | inl ValueError =>
      exists f, In f entries /\ is_txt f = true /\ key_of (fst f) = inl ValueError
  | inl TypeError =>
      (forall f, In f entries -> is_txt f = true -> key_of (fst f) <> inl ValueError) /\
      exists f1 f2 n s,
        In f1 entries /\ is_txt f1 = true /\ key_of (fst f1) = inr (IntKey n) /\
        In f2 entries /\ is_txt f2 = true /\ key_of (fst f2) = inr (StrKey s)
  | inl KeyError => False
  end.
Proof.
  destruct (sorted_txt_files entries) as [e|files] eqn:H;
    [|exact (sorted_txt_files_inr _ _ H)].
  unfold sorted_txt_files in H.
  destruct (with_keys (filter is_txt entries)) as [e0|ks] eqn:Hkeys.
  - injection H as <-. destruct (with_keys_inl _ _ Hkeys) as [-> (f & Hf & Hk)].
    apply filter_In in Hf. exists f. tauto.
  - destruct (sort_keyed ks) as [e0|sorted] eqn:Hsort; [|discriminate H].
    injection H as <-. pose proof (sort_keyed_inl _ _ Hsort) as ->.
    destruct (with_keys_inr _ _ Hkeys) as [Hmap Hok].
    assert (Hin : forall x, In x ks ->
                    In (snd x) entries /\ is_txt (snd x) = true /\
                    key_of (fst (snd x)) = inr (fst x)).
    { intros x Hx. pose proof (in_map snd _ _ Hx) as Hsnd. rewrite Hmap in Hsnd.
      apply filter_In in Hsnd. destruct Hsnd as [H1 H2].
      split; [exact H1|]. split; [exact H2|].
      exact (proj1 (Forall_forall _ _) Hok x Hx). }
    split.
    + intros f Hf Htxt Hk.
      assert (Hfk : In f (map snd ks)) by (rewrite Hmap; apply filter_In; tauto).
      apply in_map_iff in Hfk. destruct Hfk as (x & <- & Hx).
      destruct (Hin x Hx) as (_ & _ & Hkx). rewrite Hkx in Hk. discriminate Hk.
    + destruct (existsb (fun x => is_int_key (fst x)) ks) eqn:Hint;
        destruct (existsb (fun x => negb (is_int_key (fst x))) ks) eqn:Hstr.
      * apply existsb_exists in Hint, Hstr.
        destruct Hint as (x & Hx & Hxk), Hstr as (y & Hy & Hyk).
        destruct (Hin x Hx) as (Hx1 & Hx2 & Hx3), (Hin y Hy) as (Hy1 & Hy2 & Hy3).
        destruct (fst x) as [n|s0] eqn:Ex; [|discriminate Hxk].
        destruct (fst y) as [n0|s] eqn:Ey; [discriminate Hyk|].
        exists (snd x), (snd y), n, s. tauto.
      * exfalso. destruct (sort_keyed_returns true ks) as [r Hr];
          [|rewrite Hr in Hsort; discriminate Hsort].
        apply Forall_forall. intros x Hx.
        destruct (is_int_key (fst x)) eqn:E; [reflexivity|].
        assert (Hex : existsb (fun x => negb (is_int_key (fst x))) ks = true)
          by (apply existsb_exists; exists x; split; [exact Hx | now rewrite E]).
        rewrite Hex in Hstr. discriminate Hstr.
      * exfalso. destruct (sort_keyed_returns false ks) as [r Hr];
          [|rewrite Hr in Hsort; discriminate Hsort].
        apply Forall_forall. intros x Hx.
        destruct (is_int_key (fst x)) eqn:E; [|reflexivity].
        assert (Hex : existsb (fun x => is_int_key (fst x)) ks = true)
          by (apply existsb_exists; exists x; split; [exact Hx | exact E]).
        rewrite Hex in Hint. discriminate Hint.
      * exfalso. destruct (sort_keyed_returns true ks) as [r Hr];
          [|rewrite Hr in Hsort; discriminate Hsort].
        apply Forall_forall. intros x Hx.
        destruct (is_int_key (fst x)) eqn:E; [reflexivity|].
        assert (Hex : existsb (fun x => negb (is_int_key (fst x))) ks = true)
          by (apply existsb_exists; exists x; split; [exact Hx | now rewrite E]).
        rewrite Hex in Hstr. discriminate Hstr.
Qed.

(** * [extract_from_directory] on a directory *)



Lemma sorted_txt_files_single f k :
  is_txt f = true -> key_of (fst f) = inr k -> sorted_txt_files [f] = inr [f].
Proof.
  intros Htxt Hk. unfold sorted_txt_files. cbn [filter]. rewrite Htxt.
  cbn [with_keys]. rewrite Hk. reflexivity.
Qed.

Lemma extract_from_directory_pass files :
  NoDup (map fst files) ->
  extract_from_directory files = Some (flat_map file_records files).
Proof.
  intros Hnd. unfold extract_from_directory. rewrite (aggregate_pass files Hnd).
  f_equal. unfold pass_buckets, file_records.
  induction files as [|f files IH]; [reflexivity|].
  cbn [map] in Hnd. inversion Hnd; subst.
  cbn [flat_map]. rewrite make_records_app. f_equal. now apply IH.
Qed.

(** X11: files do not interfere.  In a directory (no two entries of the
    same name) whose listing sorts, the records are those each .txt file
    gives when it is alone in the directory, one file after the other in
    the order of the sorted listing. *)
Theorem directory_records_by_file (entries files : list document) :
  NoDup (map fst entries) ->
  sorted_txt_files entries = inr files ->
  extract_from_input_dir entries = inr (flat_map file_records files) /\
  Forall (fun f => extract_from_input_dir [f] = inr (file_records f)) files.
Proof.
  intros Hnd Hsort. split.
  - unfold extract_from_input_dir. rewrite Hsort.
    now rewrite (extract_from_directory_pass files (sorted_txt_files_NoDup _ _ Hnd Hsort)).
  - destruct (sorted_txt_files_inr _ _ Hsort) as (_ & _ & b & Hkeys).
    apply Forall_forall. intros f Hf.
    destruct (proj1 (Forall_forall _ _) Hkeys f Hf) as (k & Hk & _).
    destruct (proj1 (sorted_txt_files_In _ _ f Hsort) Hf) as [_ Htxt].
    unfold extract_from_input_dir. rewrite (sorted_txt_files_single f k Htxt Hk).
    rewrite extract_from_directory_pass.
    + cbn [flat_map]. now rewrite app_nil_r.
    + cbn [map]. constructor; [intros [] | constructor].
Qed.

(** On the directory listed as 2.txt, notes.md, 1.txt: notes.md is left
    out, 1.txt comes first, and the records are those of 1.txt followed by
    those of 2.txt. *)
Lemma directory_records_by_file_witness :
  extract_from_input_dir listed_entries =
    inr (file_records (file_1, [jiangling_line; comma_line])
         ++ file_records (file_2, [wuchang_line])) /\
  extract_from_input_dir [(file_1, [jiangling_line; comma_line])] =
    inr (file_records (file_1, [jiangling_line; comma_line])).
Proof.
  destruct (directory_records_by_file listed_entries
              [(file_1, [jiangling_line; comma_line]); (file_2, [wuchang_line])])
    as [H1 H2].
  - unfold listed_entries. cbn [map fst].
    repeat (constructor; [vm_compute; intuition discriminate|]). constructor.
  - vm_compute. reflexivity.
  - split.
    + rewrite H1. cbn [flat_map]. now rewrite app_nil_r.
    + inversion H2 as [|? ? Hf _]. exact Hf.
Defined.


